(** * cmeinit: the CME boot / recovery controller

    A shallow embedding of [cmeinit/__main__.py] and the properties of its
    reset-hold classifier, image selector, module launcher and shutdown
    routine.

    Conventions of the embedding.
    - Durations and clock readings are integers in milliseconds
      ([time.sleep(0.05)] is [sleep 50]; a threshold of 3 seconds is [3000]).
    - The process acts on a [World]: the GPIO channel table, the marker files
      and the ordered [trace] of the calls it made.  A statement is a
      computation [M A] that returns, raises a Python exception, or has not
      finished: a loop whose fuel ran out, a [join] that has not returned.
    - What the program reads from outside (the level of the reset line, the
      clock, the output of the docker commands) comes from oracles indexed
      by the number of reads made so far. *)

From Stdlib Require Import ZArith NArith List Ascii String Bool Lia.
From stdpp Require Import base option list gmap strings.

Local Open Scope string_scope.
Local Open Scope list_scope.

(* ===================================================================== *)
(** ** The Python runtime fragment the program relies on *)

Module Py.

(** Built-in exceptions the program can meet. *)
Inductive exn : Type :=
| NameError (name : string)
| TypeError (callee : string) (given : nat)
| ValueError (text : string)
| IndexError
| RuntimeError (what : string)
| SystemExit (code : Z).

(** Outcome of running a statement: normal completion, an exception in
    flight, or a statement that has not finished (a loop that is still
    running when the fuel is used up, a blocking call that has not
    returned). *)
Inductive result (A : Type) : Type :=
| Return (a : A)
| Raise (e : exn)
| Running.

Arguments Return {A} a.
Arguments Raise {A} e.
Arguments Running {A}.

(** Positional arguments of the calls that the runtime makes into the
    program: a signal handler is called with the signal number and the
    current frame, an RPi.GPIO edge callback with the channel. *)
Inductive pyarg : Type :=
| Signum (n : Z)
| Frame
| Channel (n : Z).

End Py.

Export Py.

(* ===================================================================== *)
(** ** The world the process acts on *)

Inductive direction : Type := IN | OUT.

Inductive level_name : Type := DEBUG | INFO | WARNING.

(** Reset intent handed to [restart] (common/Reboot.py). *)
Record ResetIntent : Type := mkIntent {
  power_off : bool;
  recovery_mode : bool;
  factory_reset : bool
}.

(** Calls with an effect outside the interpreter, in program order. *)
Inductive event : Type :=
| EOutput (channel : Z) (value : bool)        (* GPIO.output *)
| EGpioCleanup                                (* GPIO.cleanup() *)
| ESleep (ms : Z)                             (* time.sleep *)
| ELog (lvl : level_name) (msg : string)      (* logger.info / warning *)
| ERemove (path : string)                     (* os.remove *)
| ERestart (intent : ResetIntent)             (* Reboot.restart *)
| ERun (argv : list string)                   (* subprocess.run *)
| EPopen (argv : list string)                 (* subprocess.Popen *)
| ETerminate (argv : list string)             (* Popen.terminate *)
| EThreadStart (target : string) (arg : string * string)
| EThreadJoin (arg : string * string)
| EPrint (text : string).

Record World : Type := mkWorld {
  board : gmap Z (direction * bool);  (* channels set up, with their level *)
  files : gset string;                (* regular files that exist *)
  input_reads : nat;                  (* GPIO.input calls made so far *)
  clock_reads : nat;                  (* time.time calls made so far *)
  trace : list event
}.

Definition M (A : Type) : Type := World -> result A * World.

Definition ret {A} (a : A) : M A := fun w => (Return a, w).

Definition raise {A} (e : exn) : M A := fun w => (Raise e, w).

Definition bind {A B} (m : M A) (k : A -> M B) : M B :=
  fun w =>
    match m w with
    | (Return a, w') => k a w'
    | (Raise e, w') => (Raise e, w')
    | (Running, w') => (Running, w')
    end.

Notation "x <- m ;; k" := (bind m (fun x => k))
  (at level 100, m at next level, right associativity).
Notation "m ;;; k" := (bind m (fun _ => k))
  (at level 100, right associativity).

Definition emit (e : event) : M unit :=
  fun w => (Return tt,
            mkWorld (board w) (files w) (input_reads w) (clock_reads w)
                    (trace w ++ [e])).

Definition log_info (msg : string) : M unit := emit (ELog INFO msg).
Definition log_warning (msg : string) : M unit := emit (ELog WARNING msg).
Definition sleep (ms : Z) : M unit := emit (ESleep ms).

(* --------------------------------------------------------------------- *)
(** *** RPi.GPIO *)

Module GPIO.

(** [GPIO.setup(channel, direction, initial=...)]. *)
Definition setup (channel : Z) (d : direction) (initial : bool) : M unit :=
  fun w => (Return tt,
            mkWorld (<[channel := (d, initial)]> (board w)) (files w)
                    (input_reads w) (clock_reads w) (trace w)).

(** [GPIO.output(channel, value)]: the library refuses a channel that is
    not set up as an output with a RuntimeError, before it touches the
    pin. *)
Definition output (channel : Z) (value : bool) : M unit :=
  fun w =>
    match board w !! channel with
    | Some (OUT, _) =>
        (Return tt,
         mkWorld (<[channel := (OUT, value)]> (board w)) (files w)
                 (input_reads w) (clock_reads w)
                 (trace w ++ [EOutput channel value]))
    | _ => (Raise (RuntimeError "The GPIO channel has not been set up as an OUTPUT"), w)
    end.

(** [GPIO.cleanup()]: every channel the program set up is released. *)
Definition cleanup : M unit :=
  fun w => (Return tt,
            mkWorld ∅ (files w) (input_reads w) (clock_reads w)
                    (trace w ++ [EGpioCleanup])).

(** [GPIO.input(channel)] of an input channel: the level comes from the
    line oracle, [true] for HIGH; each call consumes one sample. *)
Definition input (line : nat -> bool) (channel : Z) : M bool :=
  fun w =>
    match board w !! channel with
    | Some _ =>
        (Return (line (input_reads w)),
         mkWorld (board w) (files w) (S (input_reads w)) (clock_reads w)
                 (trace w))
    | None => (Raise (RuntimeError "You must setup() the GPIO channel first"), w)
    end.

End GPIO.

(** [time.time()], in milliseconds, from the clock oracle. *)
Definition time_time (clock : nat -> Z) : M Z :=
  fun w => (Return (clock (clock_reads w)),
            mkWorld (board w) (files w) (input_reads w) (S (clock_reads w))
                    (trace w)).

(** [os.path.isfile] and [os.remove] on the marker files. *)
Definition isfile (path : string) : M bool :=
  fun w => (Return (bool_decide (path ∈ files w)), w).

Definition os_remove (path : string) : M unit :=
  fun w =>
    if bool_decide (path ∈ files w)
    then (Return tt,
          mkWorld (board w) (files w ∖ {[path]}) (input_reads w)
                  (clock_reads w) (trace w ++ [ERemove path]))
    else (Raise (RuntimeError "FileNotFoundError"), w).

(* --------------------------------------------------------------------- *)
(** *** Module-level constants and set-up (lines 14-27) *)

Definition GPIO_STATUS_SOLID : Z := 5.
Definition GPIO_STATUS_GREEN : Z := 6.
Definition GPIO_N_RESET : Z := 16.
Definition GPIO_STANDBY : Z := 19.

Definition gpio_setup : M unit :=
  GPIO.setup GPIO_STATUS_SOLID OUT false ;;;
  GPIO.setup GPIO_STATUS_GREEN OUT true ;;;
  GPIO.setup GPIO_N_RESET IN true ;;;
  GPIO.setup GPIO_STANDBY OUT false.

(** The values of [common/Config.py] the program reads. *)
Record Config : Type := mkConfig {
  RESET_REBOOT_SECONDS : Z;      (* in ms *)
  RESET_RECOVERY_SECONDS : Z;    (* in ms *)
  RESET_FACTORY_SECONDS : Z;     (* in ms *)
  RECOVERY_FILE : string;
  POWEROFF_FILE : string
}.

(** The world right after the module-level statements, given the marker
    files found on disk. *)
Definition boot_world (markers : gset string) : World :=
  snd (gpio_setup (mkWorld ∅ markers 0 0 [])).

(* ===================================================================== *)
(** ** Hold classifier: [reset] (lines 50-109) *)

Module Classifier.

Section Reset.

Variable cfg : Config.
Variable line : nat -> bool.   (* samples of GPIO_N_RESET, true = HIGH *)
Variable clock : nat -> Z.     (* readings of time.time() *)

(** One pass through the body of the [while] loop (lines 80-104). *)
Definition poll_body (reset_start : Z) (st : ResetIntent) : M ResetIntent :=
  now <- time_time clock ;;
  let elapsed := (now - reset_start)%Z in
  rm <- (if (elapsed >? RESET_REBOOT_SECONDS cfg)%Z
         then if negb (recovery_mode st)
              then log_info "Reset to recovery mode detected" ;;;
                   GPIO.output GPIO_STATUS_GREEN false ;;;
                   ret true
              else ret (recovery_mode st)
         else ret (recovery_mode st)) ;;
  fr <- (if (elapsed >? RESET_RECOVERY_SECONDS cfg)%Z
         then if negb (factory_reset st)
              then log_info "Reset to factory defaults detected" ;;;
                   GPIO.output GPIO_STATUS_SOLID true ;;;
                   ret true
              else ret (factory_reset st)
         else ret (factory_reset st)) ;;
  st' <- (if (elapsed >? RESET_FACTORY_SECONDS cfg)%Z
          then log_info "Power off/standby mode detected" ;;;
               ret (mkIntent true false false)
          else ret (mkIntent (power_off st) rm fr)) ;;
  sleep 20 ;;;
  ret st'.

(** The [while] loop of line 79:
    [while GPIO.input(GPIO_N_RESET) == GPIO.LOW or not power_off]. *)
Fixpoint poll (fuel : nat) (reset_start : Z) (st : ResetIntent)
  : M ResetIntent :=
  match fuel with
  | O => fun w => (Running, w)
  | S fuel' =>
      lvl <- GPIO.input line GPIO_N_RESET ;;
      if negb lvl || negb (power_off st)
      then st' <- poll_body reset_start st ;; poll fuel' reset_start st'
      else ret st
  end.

(** The statements of [reset] (lines 54-109): [None] is the early return
    of the debounce check. *)
Definition reset_body (fuel : nat) : M (option ResetIntent) :=
  sleep 50 ;;;
  lvl <- GPIO.input line GPIO_N_RESET ;;
  if lvl then ret None
  else
    log_info "Reset detected" ;;;
    GPIO.output GPIO_STATUS_GREEN true ;;;
    GPIO.output GPIO_STATUS_SOLID false ;;;
    reset_start_seconds <- time_time clock ;;
    st <- poll fuel reset_start_seconds (mkIntent false false false) ;;
    emit (ERestart st) ;;;
    ret (Some st).

(** [def reset():] takes no parameter: a call that passes any positional
    argument raises TypeError before the body starts. *)
Definition reset (args : list pyarg) (fuel : nat) : M (option ResetIntent) :=
  match args with
  | [] => reset_body fuel
  | _ => raise (TypeError "reset" (length args))
  end.

(** [GPIO.add_event_detect(GPIO_N_RESET, GPIO.FALLING, callback=reset,
    bouncetime=50)] (line 112): on a falling edge of the reset line
    RPi.GPIO calls the callback with the channel.  This is the only call
    of [reset] in the program. *)
Definition on_falling_edge (fuel : nat) : M (option ResetIntent) :=
  reset [Channel GPIO_N_RESET] fuel.

End Reset.

(** A synthetic input: the falling edge is at time 0, the button is
    released [release] ms later and stays released; the statements take no
    time and every sleep takes exactly its duration.  The debounce sample
    is taken at 50 ms; the k-th test of the loop at [50 + 20 k] ms. *)
Definition held_until (release : Z) (k : nat) : bool :=
  match k with
  | O => (release <=? 50)%Z
  | S j => (release <=? 50 + 20 * Z.of_nat j)%Z
  end.

Definition ideal_clock (k : nat) : Z :=
  match k with
  | O => 50%Z
  | S j => (50 + 20 * Z.of_nat j)%Z
  end.

(** The same clock, set back by 12 s after its 752nd reading (15.07 s
    after the edge), as a correction of the system time does. *)
Definition set_back_clock (k : nat) : Z :=
  if (752 <? k)%nat then (ideal_clock k - 12000)%Z else ideal_clock k.

End Classifier.

(** The thresholds of the spec's example: 3 s, 8 s and 15 s. *)
Definition cfg_3_8_15 : Config :=
  mkConfig 3000 8000 15000 "recovery-requested" "power-off-pending".

(* ===================================================================== *)
(** ** Shutdown: [cleanup] (lines 121-139) *)

Module Shutdown.

(** [sys.exit(code)] raises SystemExit; the process ends with that code
    when nothing catches it. *)
Definition sys_exit {A} (code : Z) : M A := raise (SystemExit code).

Definition SIGTERM : Z := 15.

Section Cleanup.

Variable cfg : Config.

(** The statements of [cleanup] (lines 123-134). *)
Definition cleanup_body : M unit :=
  GPIO.output GPIO_STATUS_GREEN false ;;;      (* red *)
  GPIO.output GPIO_STATUS_SOLID false ;;;      (* blinking *)
  present <- isfile (POWEROFF_FILE cfg) ;;
  (if present
   then os_remove (POWEROFF_FILE cfg) ;;;
        GPIO.output GPIO_STANDBY true ;;;
        sleep 100
   else ret tt) ;;;
  GPIO.cleanup ;;;
  log_info "CME system software exiting" ;;;
  sys_exit 0.

(** [def cleanup():] takes no parameter: a call that passes any
    positional argument raises TypeError before the body starts. *)
Definition cleanup (args : list pyarg) : M unit :=
  match args with
  | [] => cleanup_body
  | _ => raise (TypeError "cleanup" (length args))
  end.

(** [signal.signal(signal.SIGTERM, cleanup)]: the interpreter calls a
    handler with the signal number and the current frame. *)
Definition on_sigterm : M unit := cleanup [Signum SIGTERM; Frame].



(** The [try / except KeyboardInterrupt / except Exception / finally]
    block around [main()] (lines 351-361).  SystemExit is not an
    Exception; KeyboardInterrupt is not among the modelled exceptions.
    The [finally] clause runs [cleanup()] on every path, and what it
    raises replaces a pending exception. *)
Definition is_Exception (e : exn) : bool :=
  match e with
  | SystemExit _ => false
  | _ => true
  end.

Definition toplevel (main : M unit) : M unit :=
  fun w =>
    match main w with
    | (Return _, w1) => cleanup [] w1
    | (Raise e, w1) =>
        if is_Exception e
        then (log_info "Avalanche (Cme-init) has STOPPED on exception" ;;;
              cleanup []) w1
        else (cleanup [] ;;; raise e) w1
    | (Running, w1) => (Running, w1)
    end.

End Cleanup.

(** Exit status of the process for the outcome of the top-level block. *)
Definition exit_status {A} (r : result A) : option Z :=
  match r with
  | Return _ => Some 0%Z
  | Raise (SystemExit c) => Some c
  | Raise _ => Some 1%Z
  | Running => None
  end.

(** The three outputs of the controller are set up as outputs. *)
Definition outputs_ready (w : World) : Prop :=
  ∀ ch, ch ∈ [GPIO_STATUS_SOLID; GPIO_STATUS_GREEN; GPIO_STANDBY] →
        ∃ v, board w !! ch = Some (OUT, v).

(** The suffix of the trace added by running [m] in [w]. *)
Definition added (m : M unit) (w : World) : list event :=
  drop (length (trace w)) (trace (snd (m w))).

End Shutdown.

(* ===================================================================== *)
(** ** The semver package, as far as [_parse_image] uses it *)

Module Semver.

(** The package is not part of the repository.  It is taken as a
    parameter: how a version string parses (None: the ValueError of
    [semver.parse]) and how two parsed versions compare. *)
Record library : Type := mkLibrary {
  version_info : Type;
  parse : string → option version_info;
  precedence : version_info → version_info → comparison
}.

(** Precedence is a total preorder. *)
Record lawful (lib : library) : Prop := mkLawful {
  prec_refl : ∀ v, precedence lib v v = Eq;
  prec_antisym : ∀ a b, precedence lib b a = CompOpp (precedence lib a b);
  prec_trans : ∀ a b c,
    precedence lib a b ≠ Gt → precedence lib b c ≠ Gt →
    precedence lib a c ≠ Gt
}.

Section Package.

Variable lib : library.

(** [semver.compare(ver1, ver2)]. *)
Definition compare (ver1 ver2 : string) : M comparison :=
  match parse lib ver1 with
  | None => raise (ValueError ver1)
  | Some v1 =>
      match parse lib ver2 with
      | None => raise (ValueError ver2)
      | Some v2 => ret (precedence lib v1 v2)
      end
  end.

Definition drop_chars (n : nat) (s : string) : string :=
  String.substring n (String.length s - n) s.

(** The outcomes of [compare] an operator accepts. *)
Definition possibilities (prefix : string) : list comparison :=
  if String.eqb prefix ">" then [Gt]
  else if String.eqb prefix "<" then [Lt]
  else if String.eqb prefix "==" then [Eq]
  else if String.eqb prefix "!=" then [Lt; Gt]
  else if String.eqb prefix ">=" then [Eq; Gt]
  else if String.eqb prefix "<=" then [Lt; Eq]
  else [].

Definition comparison_eqb (a b : comparison) : bool :=
  match a, b with
  | Eq, Eq | Lt, Lt | Gt, Gt => true
  | _, _ => false
  end.

(** [semver.match(version, match_expr)]: the expression is an operator
    followed by a version. *)
Definition match_ (version match_expr : string) : M bool :=
  let prefix2 := String.substring 0 2 match_expr in
  let prefix1 := String.substring 0 1 match_expr in
  split <-
    (if existsb (String.eqb prefix2) [">="; "<="; "=="; "!="]
     then ret (prefix2, drop_chars 2 match_expr)
     else if existsb (String.eqb prefix1) [">"; "<"]
          then ret (prefix1, drop_chars 1 match_expr)
          else raise (ValueError match_expr)) ;;
  cmp_res <- compare version (snd split) ;;
  ret (existsb (comparison_eqb cmp_res) (possibilities (fst split))).

End Package.

(** *** An instance: versions MAJOR.MINOR.PATCH with optional +BUILD

    Numeric fields are decimal without leading zeros; build metadata
    follows the first [+] and does not take part in precedence.  Versions
    with a pre-release tag are outside this instance. *)

Fixpoint split_on (sep : Ascii.ascii) (s : string) : list string :=
  match s with
  | EmptyString => [EmptyString]
  | String c rest =>
      if Ascii.eqb c sep then EmptyString :: split_on sep rest
      else match split_on sep rest with
           | [] => [String c EmptyString]
           | h :: t => String c h :: t
           end
  end.

Definition digit (c : Ascii.ascii) : option N :=
  let n := Ascii.N_of_ascii c in
  if ((48 <=? n) && (n <=? 57))%N then Some (n - 48)%N else None.

Fixpoint digits (acc : N) (s : string) : option N :=
  match s with
  | EmptyString => Some acc
  | String c rest =>
      match digit c with
      | Some d => digits (10 * acc + d)%N rest
      | None => None
      end
  end.

Definition numeral (s : string) : option N :=
  match s with
  | EmptyString => None
  | String c EmptyString => digit c
  | String c _ => if Ascii.eqb c "0"%char then None else digits 0 s
  end.

Definition core_parse (s : string) : option (N * N * N) :=
  match split_on "+"%char s with
  | core :: _ =>
      match split_on "."%char core with
      | [a; b; c] =>
          match numeral a, numeral b, numeral c with
          | Some x, Some y, Some z => Some (x, y, z)
          | _, _, _ => None
          end
      | _ => None
      end
  | [] => None
  end.

Definition lex (a b : comparison) : comparison :=
  match a with
  | Eq => b
  | _ => a
  end.

Definition core_precedence (v1 v2 : N * N * N) : comparison :=
  let '(a1, b1, c1) := v1 in
  let '(a2, b2, c2) := v2 in
  lex (a1 ?= a2)%N (lex (b1 ?= b2)%N (c1 ?= c2)%N).

Definition core : library := mkLibrary (N * N * N) core_parse core_precedence.

End Semver.

(* ===================================================================== *)
(** ** Image selection: [_parse_image], [_list_docker_images] *)

Module Selector.

(** An image as the program keeps it: [[name, tag]]. *)
Definition image : Type := string * string.

(** A line of [docker images] after [split()]: its fields. *)
Definition row : Type := list string.

(** [seq[i]]: IndexError out of range. *)
Definition index (r : row) (i : nat) : M string :=
  match r !! i with
  | Some x => ret x
  | None => raise IndexError
  end.

(** The line of the catalog for an entry (name, versionString). *)
Definition row_of (e : string * string) : row := [e.1; e.2].

(** [dict.get(key)]: None for a missing key. *)
Definition dict_get (d : gmap string (option image)) (key : string)
  : option image :=
  default None (d !! key).

Definition required : list string := ["cmeapi"; "cmehw"; "cmeweb"].

Section Select.

Variable lib : Semver.library.

(** [_parse_image(name, current_image, new_image)] (lines 338-345). *)
Definition _parse_image (name : string) (current_image : option image)
           (new_image : row) : M (option image) :=
  n0 <- index new_image 0 ;;
  if negb (String.eqb n0 name) then ret current_image
  else
    replace_it <-
      match current_image with
      | None => ret true
      | Some cur =>
          n1 <- index new_image 1 ;;
          Semver.match_ lib n1 (">=" +:+ cur.2)
      end ;;
    if (replace_it : bool)
    then a <- index new_image 0 ;;
         b <- index new_image 1 ;;
         ret (Some (a, b))
    else ret current_image.

(** The [for] loop of [_list_docker_images] (lines 319-323). *)
Fixpoint scan (images : list row)
         (cmeapi cmehw cmeweb : option image)
  : M (option image * option image * option image) :=
  match images with
  | [] => ret (cmeapi, cmehw, cmeweb)
  | img :: rest =>
      cmeapi' <- _parse_image "cmeapi" cmeapi img ;;
      cmehw' <- _parse_image "cmehw" cmehw img ;;
      cmeweb' <- _parse_image "cmeweb" cmeweb img ;;
      scan rest cmeapi' cmehw' cmeweb'
  end.

(** [_list_docker_images()]; [images] are the lines that [docker images]
    printed after its header line, each split into fields. *)
Definition _list_docker_images (images : list row)
  : M (gmap string (option image)) :=
  emit (ERun ["docker"; "images"]) ;;;
  sel <- scan images None None None ;;
  let '(cmeapi, cmehw, cmeweb) := sel in
  ret (<["cmeapi" := cmeapi]> (<["cmehw" := cmehw]>
        (<["cmeweb" := cmeweb]> ∅))).

(** The fold over the entries of one name that [scan] performs for each
    of the three names. *)
Fixpoint select (name : string) (current : option image)
         (images : list row) : M (option image) :=
  match images with
  | [] => ret current
  | img :: rest =>
      c <- _parse_image name current img ;;
      select name c rest
  end.

End Select.

(** *** The selection as the specification words it

    For a name: the entry of that name of maximal precedence, the first
    encountered among equals; entries whose version does not parse are
    left out. *)
Section SpecSelect.

Variable lib : Semver.library.

Definition better (new cur : Semver.version_info lib) : bool :=
  match Semver.precedence lib new cur with
  | Gt => true
  | _ => false
  end.

Fixpoint spec_select_from (name : string)
         (best : option (image * Semver.version_info lib))
         (catalog : list (string * string)) : option image :=
  match catalog with
  | [] => fst <$> best
  | e :: rest =>
      if String.eqb e.1 name
      then match Semver.parse lib e.2 with
           | None => spec_select_from name best rest
           | Some v =>
               match best with
               | None => spec_select_from name (Some (e, v)) rest
               | Some (_, vb) =>
                   if better v vb
                   then spec_select_from name (Some (e, v)) rest
                   else spec_select_from name best rest
               end
           end
      else spec_select_from name best rest
  end.

Definition spec_select (name : string) (catalog : list (string * string))
  : option image :=
  spec_select_from name None catalog.

End SpecSelect.

End Selector.

(* ===================================================================== *)
(** ** The launcher threads: [_launch_docker] (lines 270-310)

    Three threads run [_launch_docker] while the main thread waits in
    [join].  Their steps interleave; each docker command is one step.  The
    docker daemon is the shared state: the containers that exist, newest
    first, each running or stopped.  [docker wait] returns once its
    container is not running; [docker stop] and [docker rm] of a container
    that is gone change nothing; [docker rm] does not remove a running
    container. *)

Module Supervisor.

Inductive service : Type := Api | Hw | Web.

Definition service_eqb (a b : service) : bool :=
  match a, b with
  | Api, Api | Hw, Hw | Web, Web => true
  | _, _ => false
  end.

Definition image_name (s : service) : string :=
  match s with
  | Api => "cmeapi"
  | Hw => "cmehw"
  | Web => "cmeweb"
  end.

(** The command line built by lines 273-296. *)
Definition image_ref (image : Selector.image) : string :=
  image.1 +:+ ":" +:+ image.2.

Definition launch_cmd (image : Selector.image) : list string :=
  let cmd := ["docker"; "run"; "-d"; "--privileged"; "--name"] in
  let cmd :=
    if String.eqb image.1 "cmeapi"
    then (cmd ++ ["cme-api"; "--net=host"]
              ++ ["-v"; "/data:/data"]
              ++ ["-v"; "/etc/network:/etc/network"]
              ++ ["-v"; "/etc/ntp.conf:/etc/ntp.conf"]
              ++ ["-v"; "/etc/localtime:/etc/localtime"]
              ++ ["-v"; "/tmp/cmehostinput:/tmp/cmehostinput"]
              ++ ["-v"; "/tmp/cmehostoutput:/tmp/cmehostoutput"]
              ++ ["-v"; "/media/usb:/media/usb"]
              ++ [image_ref image])
    else cmd in
  let cmd :=
    if String.eqb image.1 "cmehw"
    then (cmd ++ ["cme-hw"]
              ++ ["-v"; "/data:/data"]
              ++ ["--device=/dev/spidev0.0:/dev/spidev0.0"]
              ++ ["--device=/dev/spidev0.1:/dev/spidev0.1"]
              ++ ["--device=/dev/mem:/dev/mem"]
              ++ [image_ref image])
    else cmd in
  if String.eqb image.1 "cmeweb"
  then (cmd ++ ["cme-web"] ++ [image_ref image])
  else cmd.

(** Where a launcher thread stands. *)
Inductive pc : Type :=
| NotStarted                     (* [Thread.start] not called yet *)
| AtRun                          (* line 300: docker run *)
| AtWait                         (* line 305: docker wait ID *)
| AtPs                           (* line 330: docker ps -aq *)
| AtStop (todo : list service)   (* line 334, for the head of [todo] *)
| AtRm (todo : list service)     (* line 335, for the head of [todo] *)
| Finished.

(** Where the main thread stands (lines 222-238). *)
Inductive main_pc : Type :=
| StartApi | StartHw | StartWeb
| JoinApi | JoinHw | JoinWeb
| Returned.

Inductive call : Type :=
| DockerRun (c : service)
| DockerStop (c : service)
| DockerRm (c : service).

Definition call_eqb (a b : call) : bool :=
  match a, b with
  | DockerRun x, DockerRun y => service_eqb x y
  | DockerStop x, DockerStop y => service_eqb x y
  | DockerRm x, DockerRm y => service_eqb x y
  | _, _ => false
  end.

Record state : Type := mkState {
  daemon : list (service * bool);     (* containers, [true]: running *)
  thread : service → pc;
  main_at : main_pc;
  calls : list (service * call)       (* who called what, in order *)
}.

Definition set_thread (s : service) (p : pc) (th : service → pc)
  : service → pc :=
  fun x => if service_eqb x s then p else th x.

Definition running (d : list (service * bool)) (c : service) : bool :=
  existsb (fun e => service_eqb e.1 c && e.2) d.

Definition present (d : list (service * bool)) (c : service) : bool :=
  existsb (fun e => service_eqb e.1 c) d.

(** [docker stop c]. *)
Definition docker_stop (c : service) (d : list (service * bool))
  : list (service * bool) :=
  map (fun e => if service_eqb e.1 c then (e.1, false) else e) d.

(** [docker rm c]. *)
Definition docker_rm (c : service) (d : list (service * bool))
  : list (service * bool) :=
  filter (fun e => negb (service_eqb e.1 c && negb e.2)) d.

Definition init : state :=
  mkState [] (fun _ => NotStarted) StartApi [].

(** Who takes the next step: the main thread, a launcher thread, or a
    container that exits by itself. *)
Inductive actor : Type :=
| Main
| Thread (s : service)
| Exits (c : service).

Definition start_thread (s : service) (next : main_pc) (st : state)
  : option state :=
  Some (mkState (daemon st) (set_thread s AtRun (thread st)) next
                (calls st)).

Definition join_thread (s : service) (next : main_pc) (st : state)
  : option state :=
  match thread st s with
  | Finished => Some (mkState (daemon st) (thread st) next (calls st))
  | _ => None
  end.

Definition main_step (st : state) : option state :=
  match main_at st with
  | StartApi => start_thread Api StartHw st
  | StartHw => start_thread Hw StartWeb st
  | StartWeb => start_thread Web JoinApi st
  | JoinApi => join_thread Api JoinHw st
  | JoinHw => join_thread Hw JoinWeb st
  | JoinWeb => join_thread Web Returned st
  | Returned => None
  end.

Definition thread_step (s : service) (st : state) : option state :=
  let goto p d cs :=
    Some (mkState d (set_thread s p (thread st)) (main_at st) cs) in
  match thread st s with
  | NotStarted => None
  | AtRun =>
      goto AtWait ((s, true) :: daemon st) (calls st ++ [(s, DockerRun s)])
  | AtWait =>
      if running (daemon st) s then None
      else goto AtPs (daemon st) (calls st)
  | AtPs =>
      match map fst (daemon st) with
      | [] => goto Finished (daemon st) (calls st)
      | todo => goto (AtStop todo) (daemon st) (calls st)
      end
  | AtStop [] => goto Finished (daemon st) (calls st)
  | AtStop (c :: rest) =>
      goto (AtRm (c :: rest)) (docker_stop c (daemon st))
           (calls st ++ [(s, DockerStop c)])
  | AtRm [] => goto Finished (daemon st) (calls st)
  | AtRm (c :: rest) =>
      goto (match rest with [] => Finished | _ => AtStop rest end)
           (docker_rm c (daemon st))
           (calls st ++ [(s, DockerRm c)])
  | Finished => None
  end.

Definition exit_step (c : service) (st : state) : option state :=
  if running (daemon st) c
  then Some (mkState (docker_stop c (daemon st)) (thread st) (main_at st)
                     (calls st))
  else None.

Definition step (a : actor) (st : state) : option state :=
  match a with
  | Main => main_step st
  | Thread s => thread_step s st
  | Exits c => exit_step c st
  end.

(** Run a schedule; [None] when it asks a blocked actor to move. *)
Fixpoint run (schedule : list actor) (st : state) : option state :=
  match schedule with
  | [] => Some st
  | a :: rest =>
      match step a st with
      | Some st' => run rest st'
      | None => None
      end
  end.

(** How many times a docker command was issued, by any thread. *)
Definition received (c : call) (st : state) : nat :=
  length (filter (fun e => call_eqb e.2 c) (calls st)).

(** How many threads issued it. *)
Definition issued_by (s : service) (c : call) (st : state) : nat :=
  length (filter (fun e => service_eqb e.1 s && call_eqb e.2 c) (calls st)).

End Supervisor.

(* ===================================================================== *)
(** ** Boot stages: [main] (lines 143-264) *)

Module Pipeline.

Import Selector.

(** Names bound in the module namespace when [main] runs: the imports of
    lines 5-12 and the module's own assignments and functions. *)
Definition module_globals : list string :=
  [ "logging"; "signal"; "os"; "sys"; "time"; "subprocess"; "threading";
    "datetime"; "GPIO"; "semver"; "Config"; "restart";
    "GPIO_STATUS_SOLID"; "GPIO_STATUS_GREEN"; "GPIO_N_RESET";
    "GPIO_STANDBY"; "logger"; "formatter"; "sh"; "fh";
    "reset"; "cleanup"; "main"; "_launch_docker"; "_list_docker_images";
    "_stop_remove_containers"; "_parse_image" ].

Definition builtins : list string :=
  [ "len"; "print"; "Exception"; "KeyboardInterrupt" ].

(** Reading a global name: NameError when neither the module nor the
    builtins bind it. *)
Definition load_global (name : string) : M unit :=
  if existsb (String.eqb name) (module_globals ++ builtins)
  then ret tt
  else raise (NameError name).

(** [try: m except: pass]. *)
Definition try_pass (m : M unit) : M unit :=
  fun w =>
    match m w with
    | (Raise _, w') => (Return tt, w')
    | other => other
    end.

(** [_stop_remove_containers()] (lines 328-335); [containers] are the
    lines of [docker ps -aq] ([[""]] when it printed nothing). *)
Fixpoint stop_remove_each (containers : list string) : M unit :=
  match containers with
  | [] => ret tt
  | container :: rest =>
      (if negb (String.eqb container "")
       then emit (ERun ["docker"; "stop"; container]) ;;;
            emit (ERun ["docker"; "rm"; container])
       else ret tt) ;;;
      stop_remove_each rest
  end.

Definition _stop_remove_containers (containers : list string) : M unit :=
  log_info "Stopping and removing any module containers" ;;;
  emit (ERun ["docker"; "ps"; "-aq"]) ;;;
  stop_remove_each containers.

Definition recovery_command : list string :=
  ["cd /root/Cme-api; source cmeapi_venv/bin/activate; python -m cmeapi"].

Section Main.

Variable cfg : Config.
Variable lib : Semver.library.
Variable cwd : string.               (* os.getcwd() *)
Variable containers : list string.   (* lines of [docker ps -aq] *)
Variable images : list row.          (* lines of [docker images] *)
Variable packages : list string.     (* update packages on disk *)
Variable schedule : list Supervisor.actor.
                                     (* steps of the launcher threads and
                                        exits of the containers, as they
                                        interleave with the main thread *)

(** Stage 1 (lines 153-162); the result is [recovery_mode]. *)
Definition recovery_gate : M bool :=
  log_info "CME system starting" ;;;
  present <- isfile (RECOVERY_FILE cfg) ;;
  if present
  then log_info "Recovery mode boot requested" ;;;
       try_pass (os_remove (RECOVERY_FILE cfg)) ;;;
       ret true
  else log_info "Normal boot mode requested" ;;;
       ret false.

(** Stage 2 (lines 171-192).  Line 178 reads the global [glob]. *)
Definition update_check (recovery_mode : bool) : M unit :=
  if negb recovery_mode
  then
    log_info "Checking for updates" ;;;
    load_global "glob" ;;;
    let updates_found := false in
    (if (0 <? length packages)%nat
     then emit (EPrint "This is where packages loaded to docker...")
     else ret tt) ;;;
    (if negb updates_found then log_info "No updates found" else ret tt)
  else log_info "Update stage bypassed (Recovery mode)".

(** A call that has not returned. *)
Definition blocked {A} : M A := fun w => (Running, w).

(** [t_cmeapi.join(); t_cmehw.join(); t_cmeweb.join()] (lines 236-238).
    A join returns once its launcher thread has finished.  The launchers
    run concurrently with the main thread (see [Supervisor]); [schedule]
    tells how far they get.  The main thread passes the joins that
    [schedule] lets it pass and is blocked in the next one; a schedule
    that asks a blocked actor to move is no execution, and no join is
    passed on it. *)
Definition join_launchers (api hw web : image) : M unit :=
  match Supervisor.run schedule Supervisor.init with
  | Some st =>
      match Supervisor.main_at st with
      | Supervisor.Returned =>
          emit (EThreadJoin api) ;;;
          emit (EThreadJoin hw) ;;;
          emit (EThreadJoin web)
      | Supervisor.JoinWeb =>
          emit (EThreadJoin api) ;;;
          emit (EThreadJoin hw) ;;;
          blocked
      | Supervisor.JoinHw =>
          emit (EThreadJoin api) ;;;
          blocked
      | _ => blocked
      end
  | None => blocked
  end.

(** Lines 209-247: launch the three modules when all three images
    were found.  The thread bodies run concurrently (see
    [Supervisor]); here are the calls of the main thread. *)
Definition launch_if_complete (docker_images : gmap string (option image))
  : M unit :=
  let cmeapi := dict_get docker_images "cmeapi" in
  let cmehw := dict_get docker_images "cmehw" in
  let cmeweb := dict_get docker_images "cmeweb" in
  match cmeapi, cmehw, cmeweb with
  | Some api, Some hw, Some web =>
      let fifo := cwd +:+ "/cme-docker-fifo.sh" in
      log_info ("Lauching " +:+ fifo) ;;;
      emit (EPopen [fifo]) ;;;
      emit (EThreadStart "_launch_docker" api) ;;;
      emit (EThreadStart "_launch_docker" hw) ;;;
      emit (EThreadStart "_launch_docker" web) ;;;
      GPIO.output GPIO_STATUS_GREEN true ;;;
      GPIO.output GPIO_STATUS_SOLID true ;;;
      join_launchers api hw web ;;;
      log_info ("Terminating " +:+ fifo) ;;;
      emit (ETerminate [fifo]) ;;;
      log_warning "Application module(s) exiting"
  | _, _, _ => log_warning "Application modules not found"
  end.

(** Stage 3 (lines 200-251). *)
Definition module_launch (recovery_mode : bool) : M unit :=
  if negb recovery_mode
  then
    log_info "Launching modules" ;;;
    _stop_remove_containers containers ;;;
    docker_images <- _list_docker_images lib images ;;
    launch_if_complete docker_images
  else log_info "Module launch stage bypassed (Recovery mode)".

(** Stage 4 (lines 259-264). *)
Definition recovery_launch : M unit :=
  log_info "Launching recovery module" ;;;
  GPIO.output GPIO_STATUS_GREEN false ;;;
  GPIO.output GPIO_STATUS_SOLID true ;;;
  emit (ERun recovery_command).

Definition main : M unit :=
  recovery_mode <- recovery_gate ;;
  update_check recovery_mode ;;;
  module_launch recovery_mode ;;;
  recovery_launch.

End Main.

(** A process was started: a subprocess other than the docker queries, or
    a launcher thread. *)
Definition starts_process (e : event) : bool :=
  match e with
  | EPopen _ | EThreadStart _ _ => true
  | ERun ("docker" :: "run" :: _) => true
  | _ => false
  end.

End Pipeline.

(* ===================================================================== *)
(** ** Auxiliary notions for the statements *)

(** The world has the four channels of lines 24-27 set up. *)
Definition ready (w : World) : Prop :=
  Shutdown.outputs_ready w ∧ is_Some (board w !! GPIO_N_RESET).

(** [w'] is [w] after statements that neither read an oracle nor release a
    channel. *)
Definition frame (w w' : World) : Prop :=
  ready w' ∧ input_reads w' = input_reads w ∧ clock_reads w' = clock_reads w
  ∧ files w' = files w.

(** The intent of a hold that reached power-off. *)
Definition power_off_intent : ResetIntent := mkIntent true false false.

#[global] Instance direction_eq_dec : EqDecision direction.
Proof. solve_decision. Defined.

#[global] Instance level_name_eq_dec : EqDecision level_name.
Proof. solve_decision. Defined.

#[global] Instance ResetIntent_eq_dec : EqDecision ResetIntent.
Proof. solve_decision. Defined.

#[global] Instance event_eq_dec : EqDecision event.
Proof. solve_decision. Defined.



(** *** The selection on a catalog of (name, versionString) entries

    [_parse_image] neither reads nor changes the world.  On the line of an
    entry it computes [pick]; [pick_all] is the fold for one name and
    [picks] the loop over the three names. *)

Definition accepts (lib : Semver.library)
           (new cur : Semver.version_info lib) : bool :=
  existsb (Semver.comparison_eqb (Semver.precedence lib new cur))
          (Semver.possibilities ">=").

Definition pick (lib : Semver.library) (name : string)
           (current : option Selector.image) (e : string * string)
  : result (option Selector.image) :=
  if String.eqb e.1 name
  then match current with
       | None => Return (Some e)
       | Some cur =>
           match Semver.parse lib e.2 with
           | None => Raise (ValueError e.2)
           | Some v =>
               match Semver.parse lib cur.2 with
               | None => Raise (ValueError cur.2)
               | Some vc =>
                   Return (if accepts lib v vc then Some e else Some cur)
               end
           end
       end
  else Return current.

Fixpoint pick_all (lib : Semver.library) (name : string)
         (current : option Selector.image) (catalog : list (string * string))
  : result (option Selector.image) :=
  match catalog with
  | [] => Return current
  | e :: rest =>
      match pick lib name current e with
      | Return c => pick_all lib name c rest
      | other => other
      end
  end.

(** Entries of a name, in catalog order. *)
Definition entries (name : string) (catalog : list (string * string))
  : list (string * string) :=
  filter (λ e, e.1 = name) catalog.

Definition malformed (lib : Semver.library) (e : string * string) : bool :=
  match Semver.parse lib e.2 with
  | None => true
  | Some _ => false
  end.

(** A name has a comparison that cannot be made: at least two entries, one
    of them with a version that does not parse. *)
Definition conflict (lib : Semver.library) (catalog : list (string * string))
           (name : string) : bool :=
  (2 <=? length (entries name catalog))%nat
  && existsb (malformed lib) (entries name catalog).

(** Precedence of version strings that parse. *)
Definition version_le (lib : Semver.library) (a b : string) : Prop :=
  ∃ va vb, Semver.parse lib a = Some va ∧ Semver.parse lib b = Some vb
           ∧ Semver.precedence lib va vb ≠ Gt.

Definition version_lt (lib : Semver.library) (a b : string) : Prop :=
  ∃ va vb, Semver.parse lib a = Some va ∧ Semver.parse lib b = Some vb
           ∧ Semver.precedence lib va vb = Lt.

(** [e] is the entry of [name] of greatest precedence that comes last in
    the catalog; [None] stands for a name without entry. *)
Definition last_maximum (lib : Semver.library) (name : string)
           (catalog : list (string * string))
           (sel : option Selector.image) : Prop :=
  match sel with
  | None => ∀ x, x ∈ catalog → x.1 ≠ name
  | Some e =>
      ∃ before after,
        catalog = before ++ e :: after
        ∧ e.1 = name
        ∧ (∀ x, x ∈ before → x.1 = name → version_le lib x.2 e.2)
        ∧ (∀ x, x ∈ after → x.1 = name → version_lt lib x.2 e.2)
  end.

(** C4 and C5 as the specification states them: the selection returns,
    and for each required name it is the entry the specification's
    selection picks. *)
Definition selects_as_specified (lib : Semver.library)
           (catalog : list (string * string)) (w : World) : Prop :=
  ∃ d w',
    Selector._list_docker_images lib (map Selector.row_of catalog) w
    = (Return d, w')
    ∧ ∀ name, name ∈ Selector.required →
              Selector.dict_get d name = Selector.spec_select lib name catalog.

(** *** Notions for the launcher threads *)

#[global] Instance service_eq_dec : EqDecision Supervisor.service.
Proof. solve_decision. Defined.

(** The container of [c] was created. *)
Definition created (st : Supervisor.state) (c : Supervisor.service) : Prop :=
  (1 ≤ Supervisor.received (Supervisor.DockerRun c) st)%nat.

(** The container of [c] received [docker stop] and [docker rm]. *)
Definition torn_down (st : Supervisor.state) (c : Supervisor.service) : Prop :=
  (1 ≤ Supervisor.received (Supervisor.DockerStop c) st)%nat
  ∧ (1 ≤ Supervisor.received (Supervisor.DockerRm c) st)%nat.

(** What holds in every state the three launchers and the main thread can
    reach. *)
Record launch_inv (st : Supervisor.state) : Prop := mkLaunchInv {
  inv_gone : ∀ c, created st c →
                  Supervisor.present (Supervisor.daemon st) c = false →
                  torn_down st c;
  inv_created : ∀ c, Supervisor.thread st c ≠ Supervisor.NotStarted →
                     Supervisor.thread st c ≠ Supervisor.AtRun →
                     created st c;
  inv_stopped : ∀ t c rest,
      Supervisor.thread st t = Supervisor.AtRm (c :: rest) →
      (1 ≤ Supervisor.received (Supervisor.DockerStop c) st)%nat;
  inv_own : ∀ c,
      match Supervisor.thread st c with
      | Supervisor.AtStop todo | Supervisor.AtRm todo =>
          torn_down st c ∨ c ∈ todo
      | Supervisor.Finished => torn_down st c
      | _ => True
      end;
  inv_joined :
      match Supervisor.main_at st with
      | Supervisor.JoinHw =>
          Supervisor.thread st Supervisor.Api = Supervisor.Finished
      | Supervisor.JoinWeb =>
          Supervisor.thread st Supervisor.Api = Supervisor.Finished
          ∧ Supervisor.thread st Supervisor.Hw = Supervisor.Finished
      | Supervisor.Returned =>
          ∀ s, Supervisor.thread st s = Supervisor.Finished
      | _ => True
      end
}.

(** Later states have received at least what earlier states did. *)
Definition extends (st st' : Supervisor.state) : Prop :=
  ∀ c, (Supervisor.received c st ≤ Supervisor.received c st')%nat.


(** A schedule in which the api container exits first and the web launcher
    wakes up while the api launcher is still tearing the group down. *)
Definition overlapping_teardown : list Supervisor.actor :=
  let api := Supervisor.Thread Supervisor.Api in
  let hw := Supervisor.Thread Supervisor.Hw in
  let web := Supervisor.Thread Supervisor.Web in
  [Supervisor.Main; Supervisor.Main; Supervisor.Main;   (* three starts *)
   api; hw; web;                                        (* docker run *)
   Supervisor.Exits Supervisor.Api;
   api; api;                            (* wait returns, docker ps -aq *)
   api;                                 (* docker stop of the web container *)
   web; web;                            (* wait returns, docker ps -aq *)
   web;                                 (* docker stop of the web container *)
   api; api; api; api; api;             (* the rest of the api teardown *)
   web; web; web; web; web;             (* the rest of the web teardown *)
   hw; hw;                              (* wait returns, nothing listed *)
   Supervisor.Main; Supervisor.Main; Supervisor.Main].  (* three joins *)


(** *** Notions for the further properties *)

(** A line of the listing that the selection looks at beyond its first
    field: its first field is a required name.  An empty line counts, since
    reading its first field already fails. *)
Definition relevant (r : Selector.row) : Prop :=
  match r with
  | [] => True
  | n :: _ => n ∈ Selector.required
  end.

#[global] Instance relevant_dec r : Decision (relevant r).
Proof. destruct r; simpl; apply _. Defined.

(** A selected image has the name it is selected for and its two fields
    are the first two fields of a line of the listing. *)
Definition from_listing (images : list Selector.row) (name : string)
           (sel : option Selector.image) : Prop :=
  match sel with
  | None => True
  | Some img =>
      img.1 = name
      ∧ ∃ r, r ∈ images ∧ r !! 0%nat = Some img.1 ∧ r !! 1%nat = Some img.2
  end.

(** A line too short to select from: no field at all, or a required name
    without a tag. *)
Definition too_short (r : Selector.row) : Prop :=
  r = [] ∨ ∃ n, r = [n] ∧ n ∈ Selector.required.

(** No two different entries of a catalog have the same name and versions
    of equal precedence. *)
Definition no_ties (lib : Semver.library)
           (catalog : list (string * string)) : Prop :=
  ∀ x y vx vy,
    x ∈ catalog → y ∈ catalog → x.1 = y.1 →
    Semver.parse lib x.2 = Some vx → Semver.parse lib y.2 = Some vy →
    Semver.precedence lib vx vy = Eq → x = y.

(** A launcher that still has the container of [c] on its list. *)
Definition on_todo (st : Supervisor.state) (t c : Supervisor.service) : Prop :=
  ∃ todo, (Supervisor.thread st t = Supervisor.AtStop todo
           ∨ Supervisor.thread st t = Supervisor.AtRm todo)
          ∧ c ∈ todo.

(** What ties the containers that exist to the launchers that will remove
    them, in every state the threads can reach. *)
Record group_inv (st : Supervisor.state) : Prop := mkGroupInv {
  g_not_started :
    match Supervisor.main_at st with
    | Supervisor.StartApi => ∀ s, Supervisor.thread st s = Supervisor.NotStarted
    | Supervisor.StartHw =>
        Supervisor.thread st Supervisor.Hw = Supervisor.NotStarted
        ∧ Supervisor.thread st Supervisor.Web = Supervisor.NotStarted
    | Supervisor.StartWeb =>
        Supervisor.thread st Supervisor.Web = Supervisor.NotStarted
    | _ => True
    end;
  g_present : ∀ c,
    Supervisor.present (Supervisor.daemon st) c = true →
    Supervisor.thread st c = Supervisor.AtWait
    ∨ Supervisor.thread st c = Supervisor.AtPs
    ∨ on_todo st c c;
  g_listed : ∀ t c,
    on_todo st t c →
    Supervisor.thread st c ≠ Supervisor.NotStarted
    ∧ Supervisor.thread st c ≠ Supervisor.AtRun;
  g_stopped : ∀ t c rest,
    Supervisor.thread st t = Supervisor.AtRm (c :: rest) →
    Supervisor.running (Supervisor.daemon st) c = false
}.

(** Name of the container that line 276, 287 or 295 gives a service. *)
Definition container_name (s : Supervisor.service) : string :=
  match s with
  | Supervisor.Api => "cme-api"
  | Supervisor.Hw => "cme-hw"
  | Supervisor.Web => "cme-web"
  end.

(** As long as no container has exited: the launchers are at most waiting,
    each for a running container, no teardown command was issued and the
    main thread is not past its first join. *)
Record all_running_inv (st : Supervisor.state) : Prop := mkAllRunning {
  r_threads : ∀ s,
    Supervisor.thread st s = Supervisor.NotStarted
    ∨ Supervisor.thread st s = Supervisor.AtRun
    ∨ (Supervisor.thread st s = Supervisor.AtWait
       ∧ Supervisor.running (Supervisor.daemon st) s = true);
  r_calls : ∀ c,
    Supervisor.received (Supervisor.DockerStop c) st = 0%nat
    ∧ Supervisor.received (Supervisor.DockerRm c) st = 0%nat;
  r_main :
    match Supervisor.main_at st with
    | Supervisor.JoinHw | Supervisor.JoinWeb | Supervisor.Returned => False
    | _ => True
    end
}.

(** All three images were found (the test of line 214). *)
Definition complete (d : gmap string (option Selector.image)) : bool :=
  match Selector.dict_get d "cmeapi", Selector.dict_get d "cmehw",
        Selector.dict_get d "cmeweb" with
  | Some _, Some _, Some _ => true
  | _, _, _ => false
  end.

(** The schedule takes the main thread past its three joins. *)
Definition joins_return (schedule : list Supervisor.actor) : bool :=
  match Supervisor.run schedule Supervisor.init with
  | Some st =>
      match Supervisor.main_at st with
      | Supervisor.Returned => true
      | _ => false
      end
  | None => false
  end.

(* ===================================================================== *)
(** * Properties *)

(** ** Basic facts about the primitives *)

Lemma boot_world_ready markers : ready (boot_world markers).
Proof.
  split.
  - intros ch Hch. vm_compute in Hch.
    repeat (apply elem_of_cons in Hch as [-> | Hch]); try (eexists; reflexivity).
    by apply elem_of_nil in Hch.
  - by eexists.
Qed.

Lemma frame_refl w : ready w → frame w w.
Proof. by intros H; repeat split; try apply H. Qed.

Lemma frame_trans w1 w2 w3 : frame w1 w2 → frame w2 w3 → frame w1 w3.
Proof.
  intros (_ & Hi & Hc & Hf) (Hr & Hi' & Hc' & Hf').
  repeat split; try apply Hr; congruence.
Qed.

Lemma emit_frame e w :
  ready w → ∃ w', emit e w = (Return tt, w') ∧ frame w w'
                  ∧ trace w' = trace w ++ [e].
Proof.
  intros Hr. eexists; split; [reflexivity|]. split; [|done].
  destruct Hr as [Ho Hi]. repeat split; auto.
Qed.

Lemma output_frame ch v w :
  ready w → ch ∈ [GPIO_STATUS_SOLID; GPIO_STATUS_GREEN; GPIO_STANDBY] →
  ∃ w', GPIO.output ch v w = (Return tt, w') ∧ frame w w'
        ∧ trace w' = trace w ++ [EOutput ch v]
        ∧ board w' = <[ch := (OUT, v)]> (board w).
Proof.
  intros [Ho Hi] Hch. destruct (Ho ch Hch) as [v0 Hv0].
  unfold GPIO.output. rewrite Hv0. eexists; split; [reflexivity|].
  split; [|done]. repeat split; simpl.
  - intros c Hc. simpl. destruct (decide (c = ch)) as [->|Hne].
    + exists v. by rewrite lookup_insert_eq.
    + rewrite lookup_insert_ne; [|done]. by apply Ho.
  - destruct (decide (GPIO_N_RESET = ch)) as [<-|Hne].
    + by rewrite lookup_insert_eq.
    + by rewrite lookup_insert_ne.
Qed.

Lemma bind_return {A B} (m : M A) (k : A → M B) w a w' :
  m w = (Return a, w') → bind m k w = k a w'.
Proof. intros H. unfold bind. by rewrite H. Qed.

Lemma time_time_spec clock w :
  ready w →
  ∃ w', time_time clock w = (Return (clock (clock_reads w)), w')
        ∧ ready w' ∧ input_reads w' = input_reads w
        ∧ clock_reads w' = S (clock_reads w) ∧ trace w' = trace w.
Proof. intros [Ho Hi]. eexists; split; [reflexivity|]. by repeat split. Qed.

Lemma input_spec line w :
  ready w →
  ∃ w', GPIO.input line GPIO_N_RESET w = (Return (line (input_reads w)), w')
        ∧ ready w' ∧ input_reads w' = S (input_reads w)
        ∧ clock_reads w' = clock_reads w ∧ trace w' = trace w.
Proof.
  intros [Ho [x Hx]]. unfold GPIO.input. rewrite Hx.
  eexists; split; [reflexivity|]. repeat split; auto.
Qed.

(** ** Hold classifier *)

Section ClassifierFacts.

Variable cfg : Config.
Variable line : nat → bool.
Variable clock : nat → Z.

(** One pass of the loop: it returns, consumes one clock reading, and
    ends in the power-off intent when the reading is past the factory
    threshold. *)
Lemma poll_body_spec start st w :
  ready w →
  ∃ st' w',
    Classifier.poll_body cfg clock start st w = (Return st', w')
    ∧ ready w' ∧ input_reads w' = input_reads w
    ∧ clock_reads w' = S (clock_reads w)
    ∧ ((clock (clock_reads w) - start > RESET_FACTORY_SECONDS cfg)%Z →
       st' = power_off_intent)
    ∧ (power_off st = true → power_off st' = true).
Proof.
  intros Hr. unfold Classifier.poll_body.
  destruct (time_time_spec clock w Hr) as (w1 & E1 & Hr1 & Hi1 & Hc1 & _).
  rewrite (bind_return _ _ _ _ _ E1).
  set (elapsed := (clock (clock_reads w) - start)%Z).
  (* recovery threshold *)
  assert (∃ rm w2,
    (if (elapsed >? RESET_REBOOT_SECONDS cfg)%Z
     then if negb (recovery_mode st)
          then log_info "Reset to recovery mode detected" ;;;
               GPIO.output GPIO_STATUS_GREEN false ;;; ret true
          else ret (recovery_mode st)
     else ret (recovery_mode st)) w1 = (Return rm, w2) ∧ frame w1 w2)
    as (rm & w2 & E2 & F2).
  { destruct (elapsed >? RESET_REBOOT_SECONDS cfg)%Z;
      [destruct (negb (recovery_mode st))|];
      try (do 2 eexists; split; [reflexivity | by apply frame_refl]).
    destruct (emit_frame (ELog INFO "Reset to recovery mode detected") w1 Hr1)
      as (wa & Ea & Fa & _).
    destruct (output_frame GPIO_STATUS_GREEN false wa (proj1 Fa))
      as (wb & Eb & Fb & _); [by repeat constructor|].
    exists true, wb. split; [|by eapply frame_trans].
    unfold log_info. rewrite (bind_return _ _ _ _ _ Ea).
    by rewrite (bind_return _ _ _ _ _ Eb). }
  rewrite (bind_return _ _ _ _ _ E2).
  (* factory threshold *)
  assert (∃ fr w3,
    (if (elapsed >? RESET_RECOVERY_SECONDS cfg)%Z
     then if negb (factory_reset st)
          then log_info "Reset to factory defaults detected" ;;;
               GPIO.output GPIO_STATUS_SOLID true ;;; ret true
          else ret (factory_reset st)
     else ret (factory_reset st)) w2 = (Return fr, w3) ∧ frame w2 w3)
    as (fr & w3 & E3 & F3).
  { destruct (elapsed >? RESET_RECOVERY_SECONDS cfg)%Z;
      [destruct (negb (factory_reset st))|];
      try (do 2 eexists; split; [reflexivity | by apply frame_refl, F2]).
    destruct (emit_frame (ELog INFO "Reset to factory defaults detected") w2
                         (proj1 F2)) as (wa & Ea & Fa & _).
    destruct (output_frame GPIO_STATUS_SOLID true wa (proj1 Fa))
      as (wb & Eb & Fb & _); [by repeat constructor|].
    exists true, wb. split; [|by eapply frame_trans].
    unfold log_info. rewrite (bind_return _ _ _ _ _ Ea).
    by rewrite (bind_return _ _ _ _ _ Eb). }
  rewrite (bind_return _ _ _ _ _ E3).
  pose proof (frame_trans _ _ _ F2 F3) as F13.
  destruct F13 as (Hr3 & Hi3 & Hc3 & _).
  (* power-off threshold *)
  destruct (Z.gtb_spec elapsed (RESET_FACTORY_SECONDS cfg)) as [Hgt|Hle].
  - destruct (emit_frame (ELog INFO "Power off/standby mode detected") w3 Hr3)
      as (wa & Ea & Fa & _).
    destruct (emit_frame (ESleep 20) wa (proj1 Fa)) as (wb & Eb & Fb & _).
    exists power_off_intent, wb.
    unfold log_info, sleep.
    rewrite (bind_return _ _ _ _ _ (bind_return _ _ _ _ _ Ea)).
    rewrite (bind_return _ _ _ _ _ Eb).
    pose proof (frame_trans _ _ _ Fa Fb) as (Hrb & Hib & Hcb & _).
    repeat split; try apply Hrb; try congruence.
  - destruct (emit_frame (ESleep 20) w3 Hr3) as (wb & Eb & Fb & _).
    exists (mkIntent (power_off st) rm fr), wb.
    unfold sleep.
    rewrite (bind_return _ _ _ _ _ (eq_refl : ret _ w3 = _)).
    rewrite (bind_return _ _ _ _ _ Eb).
    destruct Fb as (Hrb & Hib & Hcb & _).
    repeat split; try apply Hrb; try congruence; try done.
    all: intros Hgt; unfold elapsed in Hle; lia.
Qed.

(** The loop leaves only with [power_off] set, whatever the line and the
    clock do. *)
Lemma poll_leaves_with_power_off fuel start st w st' w' :
  Classifier.poll cfg line clock fuel start st w = (Return st', w') →
  power_off st' = true.
Proof.
  revert st w. induction fuel as [|fuel IH]; intros st w; simpl; [done|].
  unfold bind at 1.
  destruct (GPIO.input line GPIO_N_RESET w) as [[lvl|e|] w1]; try done.
  destruct (negb lvl || negb (power_off st)) eqn:Hc.
  - unfold bind at 1.
    destruct (Classifier.poll_body cfg clock start st w1) as [[st1|e|] w2];
      try done.
    apply IH.
  - intros [= <- _]. apply orb_false_elim in Hc as [_ Hp].
    by destruct (power_off st).
Qed.

(** While the button is held for [n] more tests and then released, the
    loop returns at the release, with the power-off intent, provided the
    last reading before the release was past the factory threshold (or,
    with no test left, the power-off intent was already reached). *)
Lemma poll_until_release n :
  ∀ start st w fuel,
    ready w →
    (∀ k, (k < n)%nat → line (input_reads w + k) = false) →
    line (input_reads w + n) = true →
    (n < fuel)%nat →
    match n with
    | O => st = power_off_intent
    | S m => (clock (clock_reads w + m) - start
              > RESET_FACTORY_SECONDS cfg)%Z
    end →
    ∃ w', Classifier.poll cfg line clock fuel start st w
          = (Return power_off_intent, w')
          ∧ input_reads w' = S (input_reads w + n).
Proof.
  induction n as [|m IH]; intros start st w fuel Hr Hheld Hrel Hfuel Hlast.
  - destruct fuel as [|fuel]; [lia|]. simpl.
    destruct (input_spec line w Hr) as (w1 & E1 & _ & Hi1 & _).
    rewrite (bind_return _ _ _ _ _ E1).
    rewrite Nat.add_0_r in Hrel. rewrite Hrel, Hlast. simpl.
    exists w1. split; [done|]. lia.
  - destruct fuel as [|fuel]; [lia|]. simpl.
    destruct (input_spec line w Hr) as (w1 & E1 & Hr1 & Hi1 & Hc1 & _).
    rewrite (bind_return _ _ _ _ _ E1).
    specialize (Hheld 0%nat ltac:(lia)) as H0.
    rewrite Nat.add_0_r in H0. rewrite H0. simpl.
    destruct (poll_body_spec start st w1 Hr1)
      as (st1 & w2 & E2 & Hr2 & Hi2 & Hc2 & Hpo & _).
    rewrite (bind_return _ _ _ _ _ E2).
    destruct (IH start st1 w2 fuel Hr2) as (w' & E' & Hi').
    + intros k Hk. rewrite Hi2, Hi1.
      replace (S (input_reads w) + k)%nat with (input_reads w + S k)%nat
        by lia.
      apply Hheld. lia.
    + rewrite Hi2, Hi1.
      by replace (S (input_reads w) + m)%nat
        with (input_reads w + S m)%nat by lia.
    + lia.
    + destruct m as [|m'].
      * apply Hpo. rewrite Hc1.
        by rewrite Nat.add_0_r in Hlast.
      * rewrite Hc2, Hc1.
        by replace (S (clock_reads w) + m')%nat
          with (clock_reads w + S m')%nat by lia.
    + exists w'. split; [done|]. rewrite Hi', Hi2, Hi1. lia.
Qed.

End ClassifierFacts.

(** Whatever the line and the clock do, and however it is called, an
    intent that [reset] emits has [power_off] set: the loop of line 79
    goes on while the button is held or power-off is not reached. *)
Lemma reset_emits_only_power_off cfg line clock args fuel w intent w' :
  Classifier.reset cfg line clock args fuel w = (Return (Some intent), w') →
  power_off intent = true.
Proof.
  destruct args as [|a args]; [|done].
  unfold Classifier.reset, Classifier.reset_body, bind.
  repeat match goal with
         | |- context [match ?m ?x with _ => _ end] =>
             lazymatch m with
             | Classifier.poll _ _ _ _ _ _ => fail
             | _ => destruct (m x) as [[?|?|] ?]; try done
             end
         | |- context [if ?b then _ else _] => destruct b; try done
         end.
  destruct (Classifier.poll _ _ _ _ _ _ _) as [[st|?|] ?] eqn:Hp; try done.
  apply poll_leaves_with_power_off in Hp.
  simpl. by intros [= <- _].
Qed.

(** The statements of [reset], run by a call without arguments, with a
    clock that does not go back: when the button is held while the
    elapsed time passes the factory threshold and is released afterwards,
    the loop is left at the release and the intent handed to [restart] is
    power-off with the recovery and factory flags cleared. *)
Lemma reset_body_hold_past_factory
      cfg line clock (w : World) (n : nat) :
  ready w →
  (∀ k, (k ≤ n)%nat → line (input_reads w + k)%nat = false) →
  line (input_reads w + S n)%nat = true →
  (∀ i j, (i ≤ j)%nat → (clock i ≤ clock j)%Z) →
  (∃ j, (1 ≤ j ≤ n)%nat
        ∧ (clock (clock_reads w + j)%nat - clock (clock_reads w)
           > RESET_FACTORY_SECONDS cfg)%Z) →
  ∀ fuel, (n < fuel)%nat →
  ∃ w', Classifier.reset cfg line clock [] fuel w
        = (Return (Some power_off_intent), w')
        ∧ last (trace w') = Some (ERestart power_off_intent)
        ∧ input_reads w' = (input_reads w + S (S n))%nat.
Proof.
  intros Hr Hheld Hrel Hmono (j & Hj & Hpast) fuel Hfuel.
  unfold Classifier.reset, Classifier.reset_body.
  destruct (emit_frame (ESleep 50) w Hr) as (w1 & E1 & (Hr1 & Hi1 & Hc1 & _) & _).
  unfold sleep at 1. rewrite (bind_return _ _ _ _ _ E1).
  destruct (input_spec line w1 Hr1) as (w2 & E2 & Hr2 & Hi2 & Hc2 & _).
  rewrite (bind_return _ _ _ _ _ E2).
  rewrite Hi1. specialize (Hheld 0%nat ltac:(lia)) as H0.
  rewrite Nat.add_0_r in H0. rewrite H0.
  destruct (emit_frame (ELog INFO "Reset detected") w2 Hr2)
    as (w3 & E3 & (Hr3 & Hi3 & Hc3 & _) & _).
  unfold log_info at 1. rewrite (bind_return _ _ _ _ _ E3).
  destruct (output_frame GPIO_STATUS_GREEN true w3 Hr3)
    as (w4 & E4 & (Hr4 & Hi4 & Hc4 & _) & _); [by repeat constructor|].
  rewrite (bind_return _ _ _ _ _ E4).
  destruct (output_frame GPIO_STATUS_SOLID false w4 Hr4)
    as (w5 & E5 & (Hr5 & Hi5 & Hc5 & _) & _); [by repeat constructor|].
  rewrite (bind_return _ _ _ _ _ E5).
  destruct (time_time_spec clock w5 Hr5) as (w6 & E6 & Hr6 & Hi6 & Hc6 & _).
  rewrite (bind_return _ _ _ _ _ E6).
  assert (input_reads w6 = S (input_reads w)) as Hi by congruence.
  assert (clock_reads w5 = clock_reads w) as Hc5' by congruence.
  assert (clock_reads w6 = S (clock_reads w)) as Hc by congruence.
  destruct (poll_until_release cfg line clock n (clock (clock_reads w5))
              (mkIntent false false false) w6 fuel Hr6)
    as (w7 & E7 & Hi7).
  - intros k Hk. rewrite Hi.
    replace (S (input_reads w) + k)%nat with (input_reads w + S k)%nat by lia.
    apply Hheld. lia.
  - rewrite Hi.
    by replace (S (input_reads w) + n)%nat
      with (input_reads w + S n)%nat by lia.
  - done.
  - destruct n as [|m]; [lia|]. rewrite Hc, Hc5'.
    replace (S (clock_reads w) + m)%nat with (clock_reads w + S m)%nat by lia.
    assert (clock (clock_reads w + j)%nat ≤ clock (clock_reads w + S m)%nat)%Z
      by (apply Hmono; lia).
    lia.
  - rewrite (bind_return _ _ _ _ _ E7).
    eexists. split; [reflexivity|]. simpl. split.
    + by rewrite last_snoc.
    + rewrite Hi7, Hi. lia.
Qed.

(** The same statements when [time.time()] is set back during the hold:
    with thresholds 3 s, 8 s and 15 s, a hold of 16.5 s and a clock set
    back by 12 s right after the power-off threshold was passed, the next
    pass of the loop sees an elapsed time between the recovery thresholds
    and sets the recovery flag again; the intent handed to [restart] is
    power-off together with recovery mode. *)
Lemma reset_body_clock_set_back :
  fst (Classifier.reset cfg_3_8_15 (Classifier.held_until 16500)
                        Classifier.set_back_clock [] 2000 (boot_world ∅))
  = Return (Some (mkIntent true true false)).
Proof. vm_compute. reflexivity. Qed.

(** C1 (the code departs from the claim).  With thresholds 3 s, 8 s and
    15 s, the statements of [reset] (run by a call without arguments) do
    not end the loop when the button is released 1 s, 5 s or 12 s after
    the edge: 14 s of polling later the loop is still running, and the
    one intent emitted in the end is power-off with recovery and factory
    flags cleared, not reboot, recovery or factory. *)
Theorem C1_release_before_power_off_is_ignored :
  let outcome release fuel :=
    fst (Classifier.reset cfg_3_8_15 (Classifier.held_until release)
                          Classifier.ideal_clock [] fuel (boot_world ∅)) in
  outcome 1000%Z 700%nat = Running
  ∧ outcome 1000%Z 1000%nat = Return (Some power_off_intent)
  ∧ outcome 5000%Z 1000%nat = Return (Some power_off_intent)
  ∧ outcome 12000%Z 1000%nat = Return (Some power_off_intent).
Proof. vm_compute. done. Qed.

(** C8 (the code departs from the claim).  On a falling edge of the reset
    line RPi.GPIO calls the callback registered on line 112 with the
    channel, and [def reset():] takes no parameter: the call raises
    TypeError before the first statement of the body.  However long the
    button is held, and whatever the line and the clock do, nothing is
    written or read and no intent is handed to [restart]. *)
Theorem C8_edge_callback_raises_TypeError
        cfg line clock fuel (w : World) :
  Classifier.on_falling_edge cfg line clock fuel w
  = (Raise (TypeError "reset" 1), w).
Proof. reflexivity. Qed.

(** ** Shutdown *)

Lemma output_spec ch v v0 w :
  board w !! ch = Some (OUT, v0) →
  GPIO.output ch v w
  = (Return tt,
     mkWorld (<[ch := (OUT, v)]> (board w)) (files w) (input_reads w)
             (clock_reads w) (trace w ++ [EOutput ch v])).
Proof. intros H. unfold GPIO.output. by rewrite H. Qed.

Lemma added_app (m : M unit) w tr :
  trace (snd (m w)) = trace w ++ tr → Shutdown.added m w = tr.
Proof. intros H. unfold Shutdown.added. rewrite H. apply drop_app_length. Qed.

(** What one invocation of the body does from a world with the outputs
    set up. *)
Lemma cleanup_body_spec cfg w :
  Shutdown.outputs_ready w →
  let marker := bool_decide (POWEROFF_FILE cfg ∈ files w) in
  Shutdown.cleanup_body cfg w
  = (Raise (SystemExit 0),
     mkWorld ∅
             (if marker then files w ∖ {[POWEROFF_FILE cfg]} else files w)
             (input_reads w) (clock_reads w)
             (trace w
              ++ [EOutput GPIO_STATUS_GREEN false;
                  EOutput GPIO_STATUS_SOLID false]
              ++ (if marker
                  then [ERemove (POWEROFF_FILE cfg);
                        EOutput GPIO_STANDBY true; ESleep 100]
                  else [])
              ++ [EGpioCleanup; ELog INFO "CME system software exiting"])).
Proof.
  intros Ho.
  destruct (Ho GPIO_STATUS_GREEN) as [vg Hg]; [by repeat constructor|].
  destruct (Ho GPIO_STATUS_SOLID) as [vs Hs]; [by repeat constructor|].
  destruct (Ho GPIO_STANDBY) as [vp Hp]; [by repeat constructor|].
  destruct w as [b f i c t]. simpl in *.
  unfold Shutdown.cleanup_body, bind, GPIO.output, isfile. simpl.
  rewrite Hg. simpl. rewrite lookup_insert_ne by done. rewrite Hs. simpl.
  destruct (bool_decide (POWEROFF_FILE cfg ∈ f)) eqn:Hm; simpl.
  - unfold os_remove. simpl. rewrite Hm. simpl.
    rewrite !lookup_insert_ne by done. rewrite Hp. simpl.
    by rewrite <- !app_assoc.
  - by rewrite <- !app_assoc.
Qed.

Lemma cleanup_added cfg w :
  Shutdown.outputs_ready w →
  Shutdown.added (Shutdown.cleanup cfg []) w
  = [EOutput GPIO_STATUS_GREEN false; EOutput GPIO_STATUS_SOLID false]
    ++ (if bool_decide (POWEROFF_FILE cfg ∈ files w)
        then [ERemove (POWEROFF_FILE cfg);
              EOutput GPIO_STANDBY true; ESleep 100]
        else [])
    ++ [EGpioCleanup; ELog INFO "CME system software exiting"].
Proof.
  intros Ho. pose proof (cleanup_body_spec cfg w Ho) as H. simpl in H.
  apply added_app. simpl. unfold Shutdown.cleanup. by rewrite H.
Qed.

(** The interpreter's call of the SIGTERM handler passes two arguments to
    a function that takes none: it raises TypeError and runs no statement
    of the body. *)
Lemma on_sigterm_raises cfg w :
  Shutdown.on_sigterm cfg w = (Raise (TypeError "cleanup" 2), w).
Proof. reflexivity. Qed.

(** C9.  From a world with the outputs set up, the teardown sets the
    indicator to red and blinking, then, only when the power-off marker
    exists, removes the marker, raises the standby line and sleeps
    100 ms, then releases the GPIO channels, and leaves with exit
    status 0; the marker is gone when the channels are released. *)
Theorem C9_cleanup_order cfg (w : World) :
  Shutdown.outputs_ready w →
  ∃ w',
    Shutdown.cleanup cfg [] w = (Raise (SystemExit 0), w')
    ∧ Shutdown.added (Shutdown.cleanup cfg []) w
      = [EOutput GPIO_STATUS_GREEN false; EOutput GPIO_STATUS_SOLID false]
        ++ (if bool_decide (POWEROFF_FILE cfg ∈ files w)
            then [ERemove (POWEROFF_FILE cfg);
                  EOutput GPIO_STANDBY true; ESleep 100]
            else [])
        ++ [EGpioCleanup; ELog INFO "CME system software exiting"]
    ∧ Shutdown.exit_status (fst (Shutdown.cleanup cfg [] w)) = Some 0%Z
    ∧ (POWEROFF_FILE cfg ∉ files w')
    ∧ board w' = ∅.
Proof.
  intros Ho. pose proof (cleanup_body_spec cfg w Ho) as H. simpl in H.
  eexists. split; [exact H|]. split; [|split; [|split]].
  - by apply cleanup_added.
  - simpl. unfold Shutdown.cleanup_body in H |- *. by rewrite H.
  - simpl. case_bool_decide as Hm; [|done].
    rewrite elem_of_difference, elem_of_singleton. tauto.
  - done.
Qed.

Lemma C9_witness :
  ∃ w',
    Shutdown.cleanup cfg_3_8_15 [] (boot_world {[POWEROFF_FILE cfg_3_8_15]})
    = (Raise (SystemExit 0), w')
    ∧ Shutdown.added (Shutdown.cleanup cfg_3_8_15 [])
                     (boot_world {[POWEROFF_FILE cfg_3_8_15]})
      = [EOutput GPIO_STATUS_GREEN false; EOutput GPIO_STATUS_SOLID false]
        ++ (if bool_decide (POWEROFF_FILE cfg_3_8_15
                            ∈ files (boot_world {[POWEROFF_FILE cfg_3_8_15]}))
            then [ERemove (POWEROFF_FILE cfg_3_8_15);
                  EOutput GPIO_STANDBY true; ESleep 100]
            else [])
        ++ [EGpioCleanup; ELog INFO "CME system software exiting"]
    ∧ Shutdown.exit_status
        (fst (Shutdown.cleanup cfg_3_8_15 []
                (boot_world {[POWEROFF_FILE cfg_3_8_15]}))) = Some 0%Z
    ∧ (POWEROFF_FILE cfg_3_8_15 ∉ files w')
    ∧ board w' = ∅.
Proof.
  apply (C9_cleanup_order cfg_3_8_15 (boot_world {[POWEROFF_FILE cfg_3_8_15]})).
  apply boot_world_ready.
Defined.

(** C10.  From a world with the outputs set up, the teardown raises the
    standby line exactly when the power-off marker exists as it runs;
    without the marker it makes no call on the standby line and removes no
    file. *)
Theorem C10_standby_iff_marker cfg (w : World) :
  Shutdown.outputs_ready w →
  (EOutput GPIO_STANDBY true ∈ Shutdown.added (Shutdown.cleanup cfg []) w
   ↔ POWEROFF_FILE cfg ∈ files w)
  ∧ (POWEROFF_FILE cfg ∉ files w →
     ∀ e, e ∈ Shutdown.added (Shutdown.cleanup cfg []) w →
          (∀ v, e ≠ EOutput GPIO_STANDBY v) ∧ (∀ path, e ≠ ERemove path)).
Proof.
  intros Ho. rewrite (cleanup_added cfg w Ho).
  case_bool_decide as Hm; simpl.
  - split; [|done]. split; [done|]. intros _.
    do 3 apply list_elem_of_further. apply list_elem_of_here.
  - split.
    + split; [|done]. intros He.
      repeat (apply elem_of_cons in He as [He | He]; [done|]).
      by apply elem_of_nil in He.
    + intros _ e He.
      repeat (apply elem_of_cons in He as [-> | He]; [done|]).
      by apply elem_of_nil in He.
Qed.

Lemma C10_witness :
  let w := boot_world ∅ in
  (EOutput GPIO_STANDBY true
     ∈ Shutdown.added (Shutdown.cleanup cfg_3_8_15 []) w
   ↔ POWEROFF_FILE cfg_3_8_15 ∈ files w)
  ∧ (POWEROFF_FILE cfg_3_8_15 ∉ files w →
     ∀ e, e ∈ Shutdown.added (Shutdown.cleanup cfg_3_8_15 []) w →
          (∀ v, e ≠ EOutput GPIO_STANDBY v) ∧ (∀ path, e ≠ ERemove path)).
Proof.
  apply (C10_standby_iff_marker cfg_3_8_15 (boot_world ∅)).
  apply boot_world_ready.
Defined.







(** ** Boot stages *)

Lemma bind_assoc {A B C} (m : M A) (k1 : A → M B) (k2 : B → M C) w :
  bind (bind m k1) k2 w = bind m (λ a, bind (k1 a) k2) w.
Proof. unfold bind. by destruct (m w) as [[a|e|] w1]. Qed.

Lemma bind_return_inv {A B} (m : M A) (k : A → M B) w b w' :
  bind m k w = (Return b, w') →
  ∃ a w1, m w = (Return a, w1) ∧ k a w1 = (Return b, w').
Proof.
  unfold bind. destruct (m w) as [[a|e|] w1]; try done. by exists a, w1.
Qed.

(** The name [glob] is bound neither by the module nor by the builtins. *)
Lemma glob_is_unbound w :
  Pipeline.load_global "glob" w = (Raise (NameError "glob"), w).
Proof. reflexivity. Qed.

(** [main] on a boot without the recovery marker. *)
Lemma main_normal_boot cfg lib cwd containers images packages schedule w :
  RECOVERY_FILE cfg ∉ files w →
  Pipeline.main cfg lib cwd containers images packages schedule w
  = (Raise (NameError "glob"),
     mkWorld (board w) (files w) (input_reads w) (clock_reads w)
             (trace w ++ [ELog INFO "CME system starting";
                          ELog INFO "Normal boot mode requested";
                          ELog INFO "Checking for updates"])).
Proof.
  intros Hno. unfold Pipeline.main, Pipeline.recovery_gate, bind, isfile.
  simpl. rewrite bool_decide_eq_false_2 by done. simpl.
  by rewrite <- !app_assoc.
Qed.

(** C3 (the code departs from the claim).  On a boot without the recovery
    marker, stage 2 reads the global [glob], which no import binds: [main]
    raises NameError after three log lines and never reaches the module
    launch, whatever update packages are present. *)
Theorem C3_normal_boot_raises_in_update_check
        cfg lib cwd containers images packages schedule (w : World) :
  RECOVERY_FILE cfg ∉ files w →
  ∃ w',
    Pipeline.main cfg lib cwd containers images packages schedule w
    = (Raise (NameError "glob"), w')
    ∧ trace w' = trace w ++ [ELog INFO "CME system starting";
                             ELog INFO "Normal boot mode requested";
                             ELog INFO "Checking for updates"].
Proof.
  intros Hno. eexists. split; [by apply main_normal_boot|]. done.
Qed.

Lemma C3_witness :
  ∃ w',
    Pipeline.main cfg_3_8_15 Semver.core "/root"
                  [""] [["cmeapi"; "1.0.0"]] ["update.tgz"] [] (boot_world ∅)
    = (Raise (NameError "glob"), w')
    ∧ trace w' = trace (boot_world ∅)
                 ++ [ELog INFO "CME system starting";
                     ELog INFO "Normal boot mode requested";
                     ELog INFO "Checking for updates"].
Proof.
  apply (C3_normal_boot_raises_in_update_check
           cfg_3_8_15 Semver.core "/root" [""] [["cmeapi"; "1.0.0"]]
           ["update.tgz"] [] (boot_world ∅)).
  vm_compute. discriminate.
Defined.

(** The top-level block turns that NameError into a log line and the
    teardown: the process ends with status 0 without having launched a
    module or the recovery application. *)
Lemma normal_boot_ends_in_cleanup
      cfg lib cwd containers images packages schedule w :
  RECOVERY_FILE cfg ∉ files w →
  Shutdown.outputs_ready w →
  let top := Shutdown.toplevel cfg
               (Pipeline.main cfg lib cwd containers images packages schedule) in
  fst (top w) = Raise (SystemExit 0)
  ∧ ∀ e, e ∈ Shutdown.added top w → Pipeline.starts_process e = false.
Proof.
  intros Hno Ho top.
  pose proof (main_normal_boot cfg lib cwd containers images packages schedule w Hno)
    as E1.
  match type of E1 with _ = (_, ?w') => set (w1 := w') in * end.
  assert (trace w1 = trace w ++ [ELog INFO "CME system starting";
                                 ELog INFO "Normal boot mode requested";
                                 ELog INFO "Checking for updates"]) as T1
    by done.
  assert (Shutdown.outputs_ready
            (snd (log_info "Avalanche (Cme-init) has STOPPED on exception" w1)))
    as Ho2 by (intros ch Hch; by apply Ho).
  pose proof (cleanup_body_spec cfg _ Ho2) as Hc. simpl in Hc.
  match type of Hc with
  | _ = ?rhs => assert (top w = rhs) as Htop
  end.
  { unfold top, Shutdown.toplevel. rewrite E1. simpl.
    unfold bind at 1. simpl. unfold Shutdown.cleanup. exact Hc. }
  rewrite Htop. split; [done|].
  intros e. unfold Shutdown.added. rewrite Htop. simpl. subst w1. simpl.
  rewrite <- !app_assoc. rewrite drop_app_length.
  intros He. simpl in He.
  repeat (apply elem_of_cons in He as [-> | He]; [done|]).
  case_bool_decide; simpl in He;
    repeat (apply elem_of_cons in He as [-> | He]; [done|]);
    by apply elem_of_nil in He.
Qed.

(** C6.  When [_list_docker_images] returned a dictionary in which one of
    the three required names has no image, stage 3 starts nothing: its
    only call after the resolution is the warning that the modules were
    not found; [main] then goes on to stage 4 and runs the recovery
    application. *)
Theorem C6_incomplete_group_launches_nothing
        lib cwd containers images schedule
        (d : gmap string (option Selector.image)) (w w1 : World) :
  (log_info "Launching modules" ;;;
   Pipeline._stop_remove_containers containers ;;;
   Selector._list_docker_images lib images) w = (Return d, w1) →
  (∃ name, name ∈ Selector.required ∧ Selector.dict_get d name = None) →
  Shutdown.outputs_ready w1 →
  ∃ w2 w',
    Pipeline.launch_if_complete cwd schedule d w1 = (Return tt, w2)
    ∧ trace w2 = trace w1 ++ [ELog WARNING "Application modules not found"]
    ∧ (Pipeline.module_launch lib cwd containers images schedule false ;;;
       Pipeline.recovery_launch) w = (Return tt, w')
    ∧ trace w' = trace w2 ++ [ELog INFO "Launching recovery module";
                              EOutput GPIO_STATUS_GREEN false;
                              EOutput GPIO_STATUS_SOLID true;
                              ERun Pipeline.recovery_command].
Proof.
  intros Hres (name & Hname & Hnone) Ho.
  assert (Pipeline.launch_if_complete cwd schedule d w1
          = log_warning "Application modules not found" w1) as Hl.
  { unfold Pipeline.launch_if_complete.
    repeat (apply elem_of_cons in Hname as [-> | Hname]);
      [| | |by apply elem_of_nil in Hname];
      rewrite Hnone; repeat case_match; done. }
  destruct (Ho GPIO_STATUS_GREEN) as [vg Hg]; [by repeat constructor|].
  destruct (Ho GPIO_STATUS_SOLID) as [vs Hs]; [by repeat constructor|].
  eexists _, _. split; [rewrite Hl; reflexivity|]. split; [done|].
  split.
  - unfold Pipeline.module_launch. simpl negb. cbv iota.
    apply bind_return_inv in Hres as ([] & wa & Ea & Hres).
    apply bind_return_inv in Hres as ([] & wb & Eb & Ec).
    rewrite bind_assoc, (bind_return _ _ _ _ _ Ea).
    rewrite bind_assoc, (bind_return _ _ _ _ _ Eb).
    rewrite bind_assoc, (bind_return _ _ _ _ _ Ec).
    rewrite (bind_return _ _ _ _ _ Hl).
    unfold Pipeline.recovery_launch, log_warning, log_info, bind, emit,
      GPIO.output. simpl.
    rewrite Hg. simpl. rewrite lookup_insert_ne by done. rewrite Hs.
    reflexivity.
  - simpl. by rewrite <- !app_assoc.
Qed.

(** C6 at the spec's example catalog: api 1.2.0 and 1.3.0, hw 2.0.0, no
    web image. *)
Lemma C6_witness :
  let images := [["cmeapi"; "1.2.0"]; ["cmeapi"; "1.3.0"]; ["cmehw"; "2.0.0"]] in
  ∃ d w1,
    (log_info "Launching modules" ;;;
     Pipeline._stop_remove_containers [""] ;;;
     Selector._list_docker_images Semver.core images) (boot_world ∅)
    = (Return d, w1)
    ∧ Selector.dict_get d "cmeweb" = None
    ∧ ∃ w2 w',
        Pipeline.launch_if_complete "/root" [] d w1 = (Return tt, w2)
        ∧ trace w2 = trace w1 ++ [ELog WARNING "Application modules not found"]
        ∧ (Pipeline.module_launch Semver.core "/root" [""] images [] false ;;;
           Pipeline.recovery_launch) (boot_world ∅) = (Return tt, w')
        ∧ trace w' = trace w2 ++ [ELog INFO "Launching recovery module";
                                  EOutput GPIO_STATUS_GREEN false;
                                  EOutput GPIO_STATUS_SOLID true;
                                  ERun Pipeline.recovery_command].
Proof.
  intros images.
  set (r := (log_info "Launching modules" ;;;
             Pipeline._stop_remove_containers [""] ;;;
             Selector._list_docker_images Semver.core images) (boot_world ∅)).
  assert (∃ d w1, r = (Return d, w1)
                  ∧ Selector.dict_get d "cmeweb" = None
                  ∧ board w1 = board (boot_world ∅))
    as (d & w1 & E & Hn & Hb).
  { eexists _, _. split; [vm_compute; reflexivity|].
    split; vm_compute; reflexivity. }
  exists d, w1. split; [exact E|]. split; [exact Hn|].
  apply (C6_incomplete_group_launches_nothing
           Semver.core "/root" [""] images [] d (boot_world ∅) w1 E).
  - exists "cmeweb". split; [|exact Hn]. by repeat constructor.
  - intros ch Hch. rewrite Hb. by apply (boot_world_ready ∅).
Defined.

(** ** Image selection *)

Lemma substring_all s : String.substring 0 (String.length s) s = s.
Proof. induction s as [|c s IH]; simpl; [done|]. by rewrite IH. Qed.

(** [semver.match(new, ">=" + cur)] parses both versions and accepts
    [new] when it is not below [cur]. *)
Lemma match_ge lib new cur w :
  Semver.match_ lib new (">=" +:+ cur) w
  = match Semver.parse lib new with
    | None => (Raise (ValueError new), w)
    | Some v =>
        match Semver.parse lib cur with
        | None => (Raise (ValueError cur), w)
        | Some vc => (Return (accepts lib v vc), w)
        end
    end.
Proof.
  change (">=" +:+ cur) with (String ">" (String "=" cur)).
  assert (String.substring 0 0 cur = "") as H00 by by destruct cur.
  unfold Semver.match_, Semver.drop_chars. simpl.
  rewrite Nat.sub_0_r, substring_all, H00.
  unfold bind, ret, raise, Semver.compare. simpl.
  destruct (Semver.parse lib new); [|done].
  destruct (Semver.parse lib cur); done.
Qed.

Lemma parse_image_row_of lib name cur e w :
  Selector._parse_image lib name cur (Selector.row_of e) w
  = (pick lib name cur e, w).
Proof.
  unfold Selector._parse_image, pick, Selector.row_of, Selector.index, bind.
  simpl. destruct (String.eqb e.1 name); simpl; [|done].
  destruct cur as [c|]; simpl; [|by destruct e].
  rewrite match_ge.
  destruct (Semver.parse lib e.2); [|done].
  destruct (Semver.parse lib c.2); [|done].
  destruct (accepts lib _ _); by destruct e.
Qed.

Lemma select_row_of lib name l :
  ∀ cur w,
    Selector.select lib name cur (map Selector.row_of l) w
    = (pick_all lib name cur l, w).
Proof.
  induction l as [|e l IH]; intros cur w; simpl; [done|].
  unfold bind. rewrite parse_image_row_of.
  destruct (pick lib name cur e); auto.
Qed.

Lemma pick_cases lib name cur e :
  (∃ c, pick lib name cur e = Return c)
  ∨ (∃ s, pick lib name cur e = Raise (ValueError s)).
Proof.
  unfold pick. repeat case_match; eauto.
Qed.

Lemma pick_all_cases lib name l :
  ∀ cur, (∃ c, pick_all lib name cur l = Return c)
         ∨ (∃ s, pick_all lib name cur l = Raise (ValueError s)).
Proof.
  induction l as [|e l IH]; intros cur; simpl; [eauto|].
  destruct (pick_cases lib name cur e) as [[c ->] | [s ->]]; eauto.
Qed.

(** The loop over the three names returns the three folds when each of
    them returns, and raises ValueError otherwise. *)
Lemma scan_row_of lib l :
  ∀ a h b w,
    match pick_all lib "cmeapi" a l, pick_all lib "cmehw" h l,
          pick_all lib "cmeweb" b l with
    | Return ra, Return rh, Return rb =>
        Selector.scan lib (map Selector.row_of l) a h b w
        = (Return (ra, rh, rb), w)
    | _, _, _ =>
        ∃ s, Selector.scan lib (map Selector.row_of l) a h b w
             = (Raise (ValueError s), w)
    end.
Proof.
  induction l as [|e l IH]; intros a h b w; simpl; [done|].
  unfold bind. rewrite parse_image_row_of.
  destruct (pick_cases lib "cmeapi" a e) as [[a' ->] | [s ->]]; [|eauto].
  rewrite parse_image_row_of.
  destruct (pick_cases lib "cmehw" h e) as [[h' ->] | [s ->]].
  2: { destruct (pick_all lib "cmeapi" a' l); eauto. }
  rewrite parse_image_row_of.
  destruct (pick_cases lib "cmeweb" b e) as [[b' ->] | [s ->]].
  2: { destruct (pick_all lib "cmeapi" a' l); eauto;
       destruct (pick_all lib "cmehw" h' l); eauto. }
  apply IH.
Qed.

Lemma accepts_not_below lib v vc :
  accepts lib v vc = true ↔ Semver.precedence lib v vc ≠ Lt.
Proof.
  unfold accepts. change (Semver.possibilities ">=") with [Eq; Gt].
  simpl. destruct (Semver.precedence lib v vc); simpl; split; done.
Qed.

Lemma eqb_name_true (a b : string) : String.eqb a b = true ↔ a = b.
Proof. apply String.eqb_eq. Qed.

Lemma eqb_name_false (a b : string) : String.eqb a b = false ↔ a ≠ b.
Proof. apply String.eqb_neq. Qed.

Section LastMaximum.

Variable lib : Semver.library.
Hypothesis law : Semver.lawful lib.

(** Not above is transitive once stated on the parsed versions. *)
Lemma not_above_accepted (vy ve vx : Semver.version_info lib) :
  Semver.precedence lib vy ve ≠ Gt →
  Semver.precedence lib vx ve ≠ Lt →
  Semver.precedence lib vy vx ≠ Gt.
Proof using law.
  intros Hye Hxe. apply (Semver.prec_trans lib law vy ve vx); [done|].
  rewrite (Semver.prec_antisym lib law vx ve).
  by destruct (Semver.precedence lib vx ve).
Qed.

(** The fold for one name keeps the last entry of greatest precedence. *)
Lemma pick_all_last_maximum name l :
  ∀ pre cur,
    last_maximum lib name pre cur →
    (∀ x, x ∈ pre ++ l → x.1 = name → is_Some (Semver.parse lib x.2)) →
    ∃ r, pick_all lib name cur l = Return r
         ∧ last_maximum lib name (pre ++ l) r.
Proof using law.
  induction l as [|x l IH]; intros pre cur Hinv Hparse; simpl.
  { exists cur. by rewrite app_nil_r. }
  assert (∀ r, last_maximum lib name (pre ++ [x]) r →
               ∃ r', pick_all lib name r l = Return r'
                     ∧ last_maximum lib name (pre ++ x :: l) r') as Hnext.
  { intros r Hr. rewrite (cons_middle x pre l), app_assoc.
    apply IH; [done|]. by rewrite <- app_assoc. }
  unfold pick. destruct (String.eqb x.1 name) eqn:Hname.
  - apply eqb_name_true in Hname.
    destruct cur as [e|].
    + destruct Hinv as (before & after & -> & He & Hle & Hlt).
      destruct (Hparse x) as [vx Hvx]; [set_solver|done|].
      destruct (Hparse e) as [ve Hve]; [set_solver|done|].
      rewrite Hvx, Hve.
      destruct (accepts lib vx ve) eqn:Hacc; apply Hnext.
      * apply accepts_not_below in Hacc.
        exists (before ++ e :: after), []. repeat split; [done| |set_solver].
        intros y Hy Hyn. apply elem_of_app in Hy as [Hy | Hy].
        { destruct (Hle y Hy Hyn) as (vy & ve' & Hvy & Hve' & Hcmp).
          assert (ve' = ve) as -> by congruence.
          exists vy, vx. repeat split; [done|done|].
          by apply (not_above_accepted vy ve vx). }
        apply elem_of_cons in Hy as [-> | Hy].
        { exists ve, vx. repeat split; [done|done|].
          apply (not_above_accepted ve ve vx); [|done].
          by rewrite (Semver.prec_refl lib law). }
        destruct (Hlt y Hy Hyn) as (vy & ve' & Hvy & Hve' & Hcmp).
        assert (ve' = ve) as -> by congruence.
        exists vy, vx. repeat split; [done|done|].
        apply (not_above_accepted vy ve vx); [|done]. by rewrite Hcmp.
      * exists before, (after ++ [x]).
        split; [by rewrite <- app_assoc|]. repeat split; [done|done|].
        intros y Hy Hyn. apply elem_of_app in Hy as [Hy | Hy]; [by apply Hlt|].
        apply list_elem_of_singleton in Hy as ->.
        exists vx, ve. repeat split; [done|done|].
        destruct (Semver.precedence lib vx ve) eqn:Hp; [| done |];
          by (assert (accepts lib vx ve = true)
               by (apply accepts_not_below; rewrite Hp; done); congruence).
    + apply Hnext. exists pre, []. repeat split; [done| |set_solver].
      intros y Hy Hyn. by destruct (Hinv y Hy).
  - apply eqb_name_false in Hname. apply Hnext.
    destruct cur as [e|].
    + destruct Hinv as (before & after & -> & He & Hle & Hlt).
      exists before, (after ++ [x]).
      split; [by rewrite <- app_assoc|]. repeat split; [done|done|].
      intros y Hy Hyn. apply elem_of_app in Hy as [Hy | Hy]; [by apply Hlt|].
      by apply list_elem_of_singleton in Hy as ->.
    + intros y Hy. apply elem_of_app in Hy as [Hy | Hy]; [by apply Hinv|].
      by apply list_elem_of_singleton in Hy as ->.
Qed.

End LastMaximum.

Lemma dict_get_three (ra rh rb : option Selector.image) :
  let d := <["cmeapi" := ra]> (<["cmehw" := rh]> (<["cmeweb" := rb]> ∅)) in
  Selector.dict_get d "cmeapi" = ra
  ∧ Selector.dict_get d "cmehw" = rh
  ∧ Selector.dict_get d "cmeweb" = rb.
Proof.
  unfold Selector.dict_get. by split; [|split].
Qed.

(** [_list_docker_images] on the lines of a catalog: the dictionary of the
    three folds, or ValueError when one of them raises. *)
Lemma list_docker_images_row_of lib l w :
  match pick_all lib "cmeapi" None l, pick_all lib "cmehw" None l,
        pick_all lib "cmeweb" None l with
  | Return ra, Return rh, Return rb =>
      ∃ w', Selector._list_docker_images lib (map Selector.row_of l) w
            = (Return (<["cmeapi" := ra]> (<["cmehw" := rh]>
                         (<["cmeweb" := rb]> ∅))), w')
  | _, _, _ =>
      ∃ s w', Selector._list_docker_images lib (map Selector.row_of l) w
              = (Raise (ValueError s), w')
  end.
Proof.
  set (w1 := snd (emit (ERun ["docker"; "images"]) w)).
  assert (emit (ERun ["docker"; "images"]) w = (Return tt, w1)) as Hemit
    by done.
  pose proof (scan_row_of lib l None None None w1) as H.
  unfold Selector._list_docker_images.
  rewrite (bind_return _ _ _ _ _ Hemit).
  destruct (pick_all lib "cmeapi" None l) as [ra|ea|];
    [destruct (pick_all lib "cmehw" None l) as [rh|eh|];
     [destruct (pick_all lib "cmeweb" None l) as [rb|eb|]|..]|..].
  1: { exists w1. by rewrite (bind_return _ _ _ _ _ H). }
  all: destruct H as [s H]; exists s, w1; unfold bind; by rewrite H.
Qed.

(** C4 fails as stated: of two entries of equal precedence the selector
    keeps the one met last, where the specification's selection keeps the
    first. *)
Lemma C4_equal_versions_keep_the_last :
  ¬ selects_as_specified Semver.core
      [("cmeapi", "1.0.0+a"); ("cmeapi", "1.0.0+b")] (boot_world ∅).
Proof.
  intros (d & w' & Hrun & Hsel).
  specialize (Hsel "cmeapi" ltac:(by repeat constructor)).
  vm_compute in Hrun. injection Hrun as <- _.
  vm_compute in Hsel. discriminate Hsel.
Qed.

(** C4, amended.  When the versions of the entries of the required names
    parse, the selection returns, and for each required name it holds the
    entry of that name of greatest precedence, the last one in catalog
    order among entries of equal precedence, or nothing when the catalog
    has no entry of that name. *)
Theorem C4_selects_last_maximum
        lib (catalog : list (string * string)) (w : World) :
  Semver.lawful lib →
  (∀ e, e ∈ catalog → e.1 ∈ Selector.required →
        is_Some (Semver.parse lib e.2)) →
  ∃ d w',
    Selector._list_docker_images lib (map Selector.row_of catalog) w
    = (Return d, w')
    ∧ ∀ name, name ∈ Selector.required →
              last_maximum lib name catalog (Selector.dict_get d name).
Proof.
  intros law Hparse.
  assert (∀ name, name ∈ Selector.required →
                  ∃ r, pick_all lib name None catalog = Return r
                       ∧ last_maximum lib name catalog r) as Hfold.
  { intros name Hname.
    apply (pick_all_last_maximum lib law name catalog [] None).
    - by intros x Hx%elem_of_nil.
    - intros x Hx Hxn. apply Hparse; [done|]. by rewrite Hxn. }
  destruct (Hfold "cmeapi") as (ra & Ea & Ha); [by repeat constructor|].
  destruct (Hfold "cmehw") as (rh & Eh & Hh); [by repeat constructor|].
  destruct (Hfold "cmeweb") as (rb & Eb & Hb); [by repeat constructor|].
  pose proof (list_docker_images_row_of lib catalog w) as H.
  rewrite Ea, Eh, Eb in H. destruct H as [w' H].
  eexists _, w'. split; [exact H|].
  destruct (dict_get_three ra rh rb) as (Ga & Gh & Gb).
  intros name Hname.
  repeat (apply elem_of_cons in Hname as [-> | Hname]);
    [by rewrite Ga | by rewrite Gh | by rewrite Gb |].
  by apply elem_of_nil in Hname.
Qed.

(** The instance orders triples lexicographically. *)
Lemma core_precedence_not_above (v1 v2 : N * N * N) :
  Semver.core_precedence v1 v2 ≠ Gt ↔
  let '(a1, b1, c1) := v1 in
  let '(a2, b2, c2) := v2 in
  (a1 < a2 ∨ (a1 = a2 ∧ (b1 < b2 ∨ (b1 = b2 ∧ c1 ≤ c2))))%N.
Proof.
  destruct v1 as [[a1 b1] c1], v2 as [[a2 b2] c2].
  unfold Semver.core_precedence, Semver.lex.
  destruct (N.compare_spec a1 a2); [|split; [lia|done]|split; [done|lia]].
  destruct (N.compare_spec b1 b2); [|split; [lia|done]|split; [done|lia]].
  destruct (N.compare_spec c1 c2); split; (done || lia).
Qed.

Lemma core_lawful : Semver.lawful Semver.core.
Proof.
  split.
  - intros [[a b] c]. simpl. unfold Semver.core_precedence.
    by rewrite !N.compare_refl.
  - intros [[a1 b1] c1] [[a2 b2] c2]. simpl. unfold Semver.core_precedence.
    rewrite (N.compare_antisym a1 a2), (N.compare_antisym b1 b2),
      (N.compare_antisym c1 c2).
    by destruct (a1 ?= a2)%N, (b1 ?= b2)%N, (c1 ?= c2)%N.
  - intros v1 v2 v3. simpl. rewrite !core_precedence_not_above.
    destruct v1 as [[a1 b1] c1], v2 as [[a2 b2] c2], v3 as [[a3 b3] c3].
    lia.
Qed.

(** C4 on the catalog of the spec's example: api 1.2.0 and 1.3.0,
    hw 2.0.0. *)
Lemma C4_witness :
  let catalog := [("cmeapi", "1.2.0"); ("cmeapi", "1.3.0"); ("cmehw", "2.0.0")] in
  ∃ d w',
    Selector._list_docker_images Semver.core (map Selector.row_of catalog)
                                 (boot_world ∅)
    = (Return d, w')
    ∧ ∀ name, name ∈ Selector.required →
              last_maximum Semver.core name catalog (Selector.dict_get d name).
Proof.
  apply (C4_selects_last_maximum
           Semver.core
           [("cmeapi", "1.2.0"); ("cmeapi", "1.3.0"); ("cmehw", "2.0.0")]
           (boot_world ∅) core_lawful).
  intros e He _.
  repeat (apply elem_of_cons in He as [-> | He]); [by eexists..|].
  by apply elem_of_nil in He.
Defined.

(** Entries of other names do not take part in the fold for a name. *)
Lemma pick_all_entries lib name l :
  ∀ cur, pick_all lib name cur l = pick_all lib name cur (entries name l).
Proof.
  induction l as [|x l IH]; intros cur; [done|].
  unfold entries. rewrite filter_cons. case_decide as Hx.
  - simpl. destruct (pick lib name cur x); [|done..]. apply IH.
  - simpl. unfold pick. apply eqb_name_false in Hx. rewrite Hx. apply IH.
Qed.

Lemma entries_name name l e : e ∈ entries name l → e.1 = name.
Proof. unfold entries. by intros [? _]%list_elem_of_filter. Qed.

(** With a current image, the fold raises as soon as it has an entry to
    compare and the current image or one of the entries does not parse. *)
Lemma pick_all_some lib name l :
  (∀ e, e ∈ l → e.1 = name) →
  ∀ c,
    if negb (bool_decide (l = []))
       && (malformed lib c || existsb (malformed lib) l)
    then ∃ s, pick_all lib name (Some c) l = Raise (ValueError s)
    else ∃ r, pick_all lib name (Some c) l = Return r.
Proof.
  induction l as [|e l IH]; intros Hname c; [by eexists|].
  assert (String.eqb e.1 name = true) as He
    by (apply eqb_name_true, Hname; by left).
  assert (∀ x, x ∈ l → x.1 = name) as Hrest
    by (intros x Hx; apply Hname; by right).
  simpl. unfold pick, malformed at 1 2. rewrite He.
  destruct (Semver.parse lib e.2) as [v|] eqn:Hv.
  2: { rewrite orb_true_r. by eexists. }
  destruct (Semver.parse lib c.2) as [vc|] eqn:Hvc; [|by eexists].
  simpl.
  assert (∀ c', malformed lib c' = false →
                if existsb (malformed lib) l
                then ∃ s, pick_all lib name (Some c') l = Raise (ValueError s)
                else ∃ r, pick_all lib name (Some c') l = Return r) as Hnext.
  { intros c' Hc'. specialize (IH Hrest c'). rewrite Hc' in IH.
    destruct l as [|x l']; [by eexists|]. exact IH. }
  destruct (accepts lib v vc); apply Hnext; unfold malformed;
    by rewrite ?Hv, ?Hvc.
Qed.

(** The fold for one name, from no current image. *)
Lemma pick_all_none lib name l :
  if conflict lib l name
  then ∃ s, pick_all lib name None l = Raise (ValueError s)
  else ∃ r, pick_all lib name None l = Return r
            ∧ ∀ e, entries name l = [e] → r = Some e.
Proof.
  rewrite pick_all_entries. unfold conflict.
  pose proof (entries_name name l) as Hname.
  destruct (entries name l) as [|e rest]; [by eexists|].
  assert (String.eqb e.1 name = true) as He
    by (apply eqb_name_true, Hname; by left).
  simpl pick_all. unfold pick. rewrite He.
  pose proof (pick_all_some lib name rest
                (λ x Hx, Hname x (list_elem_of_further _ _ _ Hx)) e) as H.
  destruct rest as [|e2 rest].
  - simpl. exists (Some e). split; [done|]. by intros ? [= ->].
  - change (2 <=? length (e :: e2 :: rest))%nat with true.
    change (negb (bool_decide (e2 :: rest = []))) with true in H.
    cbn [andb existsb] in *.
    destruct (malformed lib e
              || (malformed lib e2 || existsb (malformed lib) rest));
      [exact H|].
    destruct H as [r H]. exists r. split; [exact H|]. by intros ? [=].
Qed.

(** C5 fails as stated: with a second entry of the same name to compare
    with, the entry whose version does not parse makes the selection raise
    ValueError. *)
Lemma C5_malformed_version_raises :
  ¬ selects_as_specified Semver.core
      [("cmeapi", "latest"); ("cmeapi", "1.0.0")] (boot_world ∅).
Proof.
  intros (d & w' & Hrun & _). vm_compute in Hrun. discriminate Hrun.
Qed.

(** C5, amended.  An entry whose version does not parse is not excluded.
    The selection raises ValueError exactly when a required name has at
    least two entries, one of them with a version that does not parse;
    otherwise it returns, and where a required name has a single entry,
    that entry is selected as it is, whether its version parses or not. *)
Theorem C5_malformed_version_not_excluded
        lib (catalog : list (string * string)) (w : World) :
  if existsb (conflict lib catalog) Selector.required
  then ∃ s w',
         Selector._list_docker_images lib (map Selector.row_of catalog) w
         = (Raise (ValueError s), w')
  else ∃ d w',
         Selector._list_docker_images lib (map Selector.row_of catalog) w
         = (Return d, w')
         ∧ ∀ name e, name ∈ Selector.required →
                     entries name catalog = [e] →
                     Selector.dict_get d name = Some e.
Proof.
  pose proof (list_docker_images_row_of lib catalog w) as H.
  pose proof (pick_all_none lib "cmeapi" catalog) as Ha.
  pose proof (pick_all_none lib "cmehw" catalog) as Hh.
  pose proof (pick_all_none lib "cmeweb" catalog) as Hb.
  unfold Selector.required. simpl existsb.
  destruct (conflict lib catalog "cmeapi").
  { destruct Ha as [s Ea]. rewrite Ea in H. exact H. }
  destruct Ha as (ra & Ea & Ha). rewrite Ea in H.
  destruct (conflict lib catalog "cmehw").
  { destruct Hh as [s Eh]. rewrite Eh in H. exact H. }
  destruct Hh as (rh & Eh & Hh). rewrite Eh in H.
  destruct (conflict lib catalog "cmeweb").
  { destruct Hb as [s Eb]. rewrite Eb in H. exact H. }
  destruct Hb as (rb & Eb & Hb). rewrite Eb in H.
  destruct H as [w' H]. eexists _, w'. split; [exact H|].
  destruct (dict_get_three ra rh rb) as (Ga & Gh & Gb).
  intros name e Hname Hone.
  repeat (apply elem_of_cons in Hname as [-> | Hname]);
    [rewrite Ga; by apply Ha | rewrite Gh; by apply Hh
     | rewrite Gb; by apply Hb |].
  by apply elem_of_nil in Hname.
Qed.

(** ** The launcher threads *)

Lemma service_eqb_eq a b : Supervisor.service_eqb a b = true ↔ a = b.
Proof. destruct a, b; simpl; split; done. Qed.

Lemma service_eqb_refl a : Supervisor.service_eqb a a = true.
Proof. by destruct a. Qed.

Lemma set_thread_eq s p th : Supervisor.set_thread s p th s = p.
Proof. unfold Supervisor.set_thread. by rewrite service_eqb_refl. Qed.

Lemma set_thread_ne s p th x :
  x ≠ s → Supervisor.set_thread s p th x = th x.
Proof.
  intros Hne. unfold Supervisor.set_thread.
  destruct (Supervisor.service_eqb x s) eqn:E; [|done].
  by apply service_eqb_eq in E.
Qed.

Lemma present_elem d c :
  Supervisor.present d c = true ↔ c ∈ map fst d.
Proof.
  unfold Supervisor.present. induction d as [|e d IH]; simpl.
  - split; [done|]. by intros ?%elem_of_nil.
  - rewrite orb_true_iff, IH, elem_of_cons, service_eqb_eq.
    split; (intros [H | H]; [left | right]); done.
Qed.

Lemma present_stop x d c :
  Supervisor.present (Supervisor.docker_stop x d) c = Supervisor.present d c.
Proof.
  unfold Supervisor.present, Supervisor.docker_stop.
  induction d as [|e d IH]; simpl; [done|]. rewrite IH.
  by destruct (Supervisor.service_eqb e.1 x).
Qed.

Lemma present_rm_other x d c :
  c ≠ x →
  Supervisor.present (Supervisor.docker_rm x d) c = Supervisor.present d c.
Proof.
  intros Hne. unfold Supervisor.present, Supervisor.docker_rm.
  induction d as [|e d IH]; simpl; [done|].
  rewrite filter_cons. case_decide as Hk; simpl; rewrite IH; [done|].
  destruct (Supervisor.service_eqb e.1 c) eqn:Hec; [|done].
  apply service_eqb_eq in Hec. subst c.
  destruct (Supervisor.service_eqb e.1 x) eqn:Hex.
  - by apply service_eqb_eq in Hex.
  - by destruct Hk.
Qed.

(** Counting a command after one more call. *)
Lemma received_snoc c d th m cs x d' th' m' :
  Supervisor.received c (Supervisor.mkState d th m (cs ++ [x]))
  = (Supervisor.received c (Supervisor.mkState d' th' m' cs)
     + (if Supervisor.call_eqb x.2 c then 1 else 0))%nat.
Proof.
  unfold Supervisor.received. simpl.
  rewrite filter_app, length_app, filter_cons, filter_nil.
  by case_decide as H; destruct (Supervisor.call_eqb x.2 c).
Qed.

Lemma call_eqb_refl c : Supervisor.call_eqb c c = true.
Proof. destruct c; simpl; apply service_eqb_refl. Qed.

Lemma extends_same st d th m :
  extends st (Supervisor.mkState d th m (Supervisor.calls st)).
Proof. intros c. done. Qed.

Lemma extends_snoc st d th m x :
  extends st (Supervisor.mkState d th m (Supervisor.calls st ++ [x])).
Proof.
  intros c. destruct st as [d0 th0 m0 cs]. simpl.
  rewrite (received_snoc c d th m cs x d0 th0 m0). lia.
Qed.

Lemma created_extends st st' c : extends st st' → created st c → created st' c.
Proof. intros H Hc. unfold created in *. specialize (H (Supervisor.DockerRun c)). lia. Qed.

Lemma torn_down_extends st st' c :
  extends st st' → torn_down st c → torn_down st' c.
Proof.
  intros H [Hs Hr]. split.
  - specialize (H (Supervisor.DockerStop c)). lia.
  - specialize (H (Supervisor.DockerRm c)). lia.
Qed.

Lemma received_just c st d th m s :
  (1 ≤ Supervisor.received c
         (Supervisor.mkState d th m (Supervisor.calls st ++ [(s, c)])))%nat.
Proof.
  destruct st as [d0 th0 m0 cs]. simpl.
  rewrite (received_snoc c d th m cs (s, c) d0 th0 m0). simpl.
  rewrite call_eqb_refl. lia.
Qed.

(** A launcher that is not finished moves to [p]: what is left to show for
    the invariant. *)
Lemma thread_move_inv st s p d cs :
  let st' := Supervisor.mkState d (Supervisor.set_thread s p (Supervisor.thread st))
                                (Supervisor.main_at st) cs in
  launch_inv st →
  extends st st' →
  Supervisor.thread st s ≠ Supervisor.Finished →
  (∀ c, created st' c → Supervisor.present d c = false →
        (created st c ∧ Supervisor.present (Supervisor.daemon st) c = false)
        ∨ torn_down st' c) →
  (p ≠ Supervisor.NotStarted → p ≠ Supervisor.AtRun → created st' s) →
  (∀ c rest, p = Supervisor.AtRm (c :: rest) →
             (1 ≤ Supervisor.received (Supervisor.DockerStop c) st')%nat) →
  match p with
  | Supervisor.AtStop todo | Supervisor.AtRm todo => torn_down st' s ∨ s ∈ todo
  | Supervisor.Finished => torn_down st' s
  | _ => True
  end →
  launch_inv st'.
Proof.
  intros st' [J1 J2 J3 J4 J5] Hext Hnf Hgone Hcreated Hstopped Hown.
  split; simpl.
  - intros c Hc Hp. destruct (Hgone c Hc Hp) as [[Hc0 Hp0] | Hd]; [|done].
    apply (torn_down_extends st st' c Hext). by apply J1.
  - intros c. destruct (decide (c = s)) as [->|Hne].
    + rewrite set_thread_eq. apply Hcreated.
    + rewrite set_thread_ne by done. intros H1 H2.
      apply (created_extends st st' c Hext). by apply J2.
  - intros t c rest. destruct (decide (t = s)) as [->|Hne].
    + rewrite set_thread_eq. apply Hstopped.
    + rewrite set_thread_ne by done. intros Ht.
      specialize (J3 t c rest Ht).
      specialize (Hext (Supervisor.DockerStop c)). lia.
  - intros c. destruct (decide (c = s)) as [->|Hne].
    + rewrite set_thread_eq. exact Hown.
    + rewrite set_thread_ne by done. specialize (J4 c).
      destruct (Supervisor.thread st c); try done;
        try (destruct J4 as [J4 | J4]; [left | by right]);
        by apply (torn_down_extends st st' c Hext).
  - assert (∀ x, Supervisor.thread st x = Supervisor.Finished →
                 Supervisor.set_thread s p (Supervisor.thread st) x
                 = Supervisor.Finished) as Hkeep.
    { intros x Hx. rewrite set_thread_ne; [done|]. by intros ->. }
    destruct (Supervisor.main_at st); try done.
    + by apply Hkeep.
    + destruct J5. split; by apply Hkeep.
    + intros x. by apply Hkeep.
Qed.

Lemma received_other_call c st d th m s x :
  Supervisor.call_eqb x c = false →
  Supervisor.received c
    (Supervisor.mkState d th m (Supervisor.calls st ++ [(s, x)]))
  = Supervisor.received c st.
Proof.
  intros Hx. destruct st as [d0 th0 m0 cs]. simpl.
  rewrite (received_snoc c d th m cs (s, x) d0 th0 m0). simpl.
  rewrite Hx. lia.
Qed.

(** A step of a launcher keeps the invariant. *)
Lemma thread_step_inv s st st' :
  launch_inv st → Supervisor.thread_step s st = Some st' → launch_inv st'.
Proof.
  intros Hinv. pose proof Hinv as [J1 J2 J3 J4 J5].
  unfold Supervisor.thread_step.
  destruct (Supervisor.thread st s) as [| | | |todo|todo|] eqn:Hpc; try done.
  - (* docker run *)
    intros [= <-]. apply thread_move_inv; try done.
    + apply extends_snoc.
    + by rewrite Hpc.
    + intros c Hc Hp. left. simpl in Hp.
      apply orb_false_elim in Hp as [Hsc Hp]. split; [|done].
      unfold created in *.
      by rewrite received_other_call in Hc.
    + intros _ _. apply received_just.
  - (* docker wait *)
    destruct (Supervisor.running (Supervisor.daemon st) s); [done|].
    intros [= <-]. apply thread_move_inv; try done.
    + apply extends_same.
    + by rewrite Hpc.
    + intros c Hc Hp. by left.
    + intros _ _. apply (J2 s); by rewrite Hpc.
  - (* docker ps -aq *)
    assert (created st s) as Hcs by (apply (J2 s); by rewrite Hpc).
    assert (∀ p,
      match p with
      | Supervisor.AtStop todo =>
          todo = map fst (Supervisor.daemon st)
      | Supervisor.Finished => map fst (Supervisor.daemon st) = []
      | _ => False
      end →
      launch_inv
        (Supervisor.mkState (Supervisor.daemon st)
           (Supervisor.set_thread s p (Supervisor.thread st))
           (Supervisor.main_at st) (Supervisor.calls st))) as Hgo.
    { intros p Hp. apply thread_move_inv; try done.
      - apply extends_same.
      - by rewrite Hpc.
      - intros c Hc Hpr. by left.
      - intros c rest ->. done.
      - destruct (Supervisor.present (Supervisor.daemon st) s) eqn:Hps.
        + apply present_elem in Hps.
          destruct p; try done; [subst todo; by right|].
          rewrite Hp in Hps. by apply elem_of_nil in Hps.
        + destruct p; try done; [left|]; by apply J1. }
    destruct (map fst (Supervisor.daemon st)) as [|c0 rest] eqn:Hl;
      intros [= <-]; by apply Hgo.
  - (* docker stop *)
    destruct todo as [|c rest]; intros [= <-].
    + apply thread_move_inv; try done.
      * apply extends_same.
      * by rewrite Hpc.
      * intros c Hc Hp. by left.
      * intros _ _. apply (J2 s); by rewrite Hpc.
      * specialize (J4 s). rewrite Hpc in J4.
        destruct J4 as [H | H]; [exact H|]. by apply elem_of_nil in H.
    + assert (extends st
                (Supervisor.mkState
                   (Supervisor.docker_stop c (Supervisor.daemon st))
                   (Supervisor.set_thread s (Supervisor.AtRm (c :: rest))
                                          (Supervisor.thread st))
                   (Supervisor.main_at st)
                   (Supervisor.calls st ++ [(s, Supervisor.DockerStop c)])))
        as Hext by apply extends_snoc.
      apply thread_move_inv; try done.
      * by rewrite Hpc.
      * intros x Hx Hp. left. rewrite present_stop in Hp. split; [|done].
        unfold created in *. by rewrite received_other_call in Hx.
      * intros _ _. apply (created_extends st _ s Hext).
        apply (J2 s); by rewrite Hpc.
      * intros c0 rest0 [= <- <-]. apply received_just.
      * specialize (J4 s). rewrite Hpc in J4. destruct J4 as [H | H];
          [left | by right].
        by apply (torn_down_extends st _ s Hext).
  - (* docker rm *)
    destruct todo as [|c rest]; intros [= <-].
    + apply thread_move_inv; try done.
      * apply extends_same.
      * by rewrite Hpc.
      * intros c Hc Hp. by left.
      * intros _ _. apply (J2 s); by rewrite Hpc.
      * specialize (J4 s). rewrite Hpc in J4.
        destruct J4 as [H | H]; [exact H|]. by apply elem_of_nil in H.
    + set (p := match rest with
                | [] => Supervisor.Finished
                | _ :: _ => Supervisor.AtStop rest
                end).
      set (st1 := Supervisor.mkState
                    (Supervisor.docker_rm c (Supervisor.daemon st))
                    (Supervisor.set_thread s p (Supervisor.thread st))
                    (Supervisor.main_at st)
                    (Supervisor.calls st ++ [(s, Supervisor.DockerRm c)])).
      assert (extends st st1) as Hext by apply extends_snoc.
      assert (torn_down st1 c) as Hc.
      { split.
        - specialize (J3 s c rest Hpc).
          specialize (Hext (Supervisor.DockerStop c)). lia.
        - apply received_just. }
      apply (thread_move_inv st s p); try done.
      * by rewrite Hpc.
      * intros x Hx Hp. destruct (decide (x = c)) as [->|Hne]; [by right|].
        left. fold st1 in Hx. simpl in Hp.
        rewrite present_rm_other in Hp by done. split; [|done].
        unfold created, st1 in *. by rewrite received_other_call in Hx.
      * intros _ _. apply (created_extends st _ s Hext).
        apply (J2 s); by rewrite Hpc.
      * intros c0 rest0 Hp. unfold p in Hp. by destruct rest.
      * specialize (J4 s). rewrite Hpc in J4.
        assert (torn_down st1 s ∨ s ∈ rest) as [H | H].
        { destruct J4 as [H | H].
          - left. by apply (torn_down_extends st _ s Hext).
          - apply elem_of_cons in H as [-> | H]; [by left | by right]. }
        -- unfold p. destruct rest; [done | by left].
        -- unfold p. destruct rest; [by apply elem_of_nil in H | by right].
Qed.

(** A step of the main thread keeps the invariant. *)
Lemma main_step_inv st st' :
  launch_inv st → Supervisor.main_step st = Some st' → launch_inv st'.
Proof.
  intros [J1 J2 J3 J4 J5].
  assert (∀ s next,
            match next with
            | Supervisor.StartHw | Supervisor.StartWeb | Supervisor.JoinApi =>
                True
            | _ => False
            end →
            launch_inv
              (Supervisor.mkState (Supervisor.daemon st)
                 (Supervisor.set_thread s Supervisor.AtRun (Supervisor.thread st))
                 next (Supervisor.calls st))) as Hstart.
  { intros s next Hnext. split; simpl.
    - exact J1.
    - intros c. destruct (decide (c = s)) as [->|Hne].
      + by rewrite set_thread_eq.
      + rewrite set_thread_ne by done. apply J2.
    - intros t c rest. destruct (decide (t = s)) as [->|Hne].
      + by rewrite set_thread_eq.
      + rewrite set_thread_ne by done. apply J3.
    - intros c. destruct (decide (c = s)) as [->|Hne].
      + by rewrite set_thread_eq.
      + rewrite set_thread_ne by done. apply J4.
    - by destruct next. }
  assert (∀ next,
            match next with
            | Supervisor.JoinHw =>
                Supervisor.thread st Supervisor.Api = Supervisor.Finished
            | Supervisor.JoinWeb =>
                Supervisor.thread st Supervisor.Api = Supervisor.Finished
                ∧ Supervisor.thread st Supervisor.Hw = Supervisor.Finished
            | Supervisor.Returned =>
                ∀ s, Supervisor.thread st s = Supervisor.Finished
            | _ => True
            end →
            launch_inv
              (Supervisor.mkState (Supervisor.daemon st) (Supervisor.thread st)
                                  next (Supervisor.calls st))) as Hjoin.
  { intros next Hnext. by split. }
  unfold Supervisor.main_step, Supervisor.start_thread, Supervisor.join_thread.
  destruct (Supervisor.main_at st) eqn:Hm.
  - intros [= <-]. by apply Hstart.
  - intros [= <-]. by apply Hstart.
  - intros [= <-]. by apply Hstart.
  - destruct (Supervisor.thread st Supervisor.Api) eqn:Ha; try done.
    intros [= <-]. by apply Hjoin.
  - destruct (Supervisor.thread st Supervisor.Hw) eqn:Hh; try done.
    intros [= <-]. by apply Hjoin.
  - destruct (Supervisor.thread st Supervisor.Web) eqn:Hw; try done.
    intros [= <-]. apply Hjoin. destruct J5. by intros [].
  - done.
Qed.

(** A container that exits by itself keeps the invariant. *)
Lemma exit_step_inv c st st' :
  launch_inv st → Supervisor.exit_step c st = Some st' → launch_inv st'.
Proof.
  intros [J1 J2 J3 J4 J5]. unfold Supervisor.exit_step.
  destruct (Supervisor.running (Supervisor.daemon st) c); [|done].
  intros [= <-]. split; simpl; try done.
  intros x Hx Hp. rewrite present_stop in Hp. by apply J1.
Qed.

Lemma init_inv : launch_inv Supervisor.init.
Proof.
  split; simpl; done.
Qed.

Lemma run_inv schedule :
  ∀ st st', launch_inv st → Supervisor.run schedule st = Some st' →
            launch_inv st'.
Proof.
  induction schedule as [|a schedule IH]; intros st st' Hinv; simpl.
  - by intros [= <-].
  - destruct (Supervisor.step a st) as [st1|] eqn:Hstep; [|done].
    apply IH. destruct a; simpl in Hstep.
    + by apply (main_step_inv st).
    + by apply (thread_step_inv s st).
    + by apply (exit_step_inv c st).
Qed.




(* ===================================================================== *)
(** * Further properties of the code *)

(** ** [reset] *)

(** X2.  Whatever the line and the clock do, and with whatever arguments
    it is called, an intent that [reset] hands to [restart] has
    [power_off] set: the loop of line 79 is left only when the button is
    released and power-off was reached. *)
Theorem X2_emitted_intent_is_power_off
        cfg line clock args fuel (w w' : World) (intent : ResetIntent) :
  Classifier.reset cfg line clock args fuel w = (Return (Some intent), w') →
  power_off intent = true.
Proof.
  intros H.
  by apply (reset_emits_only_power_off cfg line clock args fuel w intent w').
Qed.

Lemma X2_witness :
  let run := Classifier.reset cfg_3_8_15 (Classifier.held_until 5000)
                              Classifier.ideal_clock [] 1000 (boot_world ∅) in
  run = (Return (Some power_off_intent), snd run)
  ∧ power_off power_off_intent = true.
Proof.
  intros run.
  assert (run = (Return (Some power_off_intent), snd run)) as H
    by (vm_compute; reflexivity).
  split; [exact H|].
  exact (X2_emitted_intent_is_power_off _ _ _ _ _ _ _ _ H).
Defined.

(** ** [main] and the top-level block *)

(** X4.  On a boot with the recovery marker, [main] removes the marker,
    bypasses the update check and the module launch whatever docker and
    the update directory hold, sets the indicator to red and solid, runs
    the recovery application and returns. *)
Theorem X4_recovery_boot
        cfg lib cwd containers images packages schedule (w : World) :
  RECOVERY_FILE cfg ∈ files w →
  Shutdown.outputs_ready w →
  ∃ w',
    Pipeline.main cfg lib cwd containers images packages schedule w = (Return tt, w')
    ∧ trace w' = trace w ++ [ELog INFO "CME system starting";
                             ELog INFO "Recovery mode boot requested";
                             ERemove (RECOVERY_FILE cfg);
                             ELog INFO "Update stage bypassed (Recovery mode)";
                             ELog INFO "Module launch stage bypassed (Recovery mode)";
                             ELog INFO "Launching recovery module";
                             EOutput GPIO_STATUS_GREEN false;
                             EOutput GPIO_STATUS_SOLID true;
                             ERun Pipeline.recovery_command]
    ∧ (RECOVERY_FILE cfg ∉ files w')
    ∧ board w' !! GPIO_STATUS_GREEN = Some (OUT, false)
    ∧ board w' !! GPIO_STATUS_SOLID = Some (OUT, true).
Proof.
  intros Hmark Ho.
  destruct (Ho GPIO_STATUS_GREEN) as [vg Hg]; [by repeat constructor|].
  destruct (Ho GPIO_STATUS_SOLID) as [vs Hs]; [by repeat constructor|].
  destruct w as [b f i c t]. simpl in *.
  unfold Pipeline.main, Pipeline.recovery_gate, bind, isfile. simpl.
  rewrite bool_decide_eq_true_2 by done. simpl.
  unfold Pipeline.try_pass, os_remove. simpl.
  rewrite bool_decide_eq_true_2 by done. simpl.
  unfold Pipeline.recovery_launch, bind, GPIO.output. simpl.
  rewrite Hg. simpl. rewrite lookup_insert_ne by done. rewrite Hs. simpl.
  eexists. split; [reflexivity|]. simpl. split; [|split; [|split]].
  - by rewrite <- !app_assoc.
  - rewrite elem_of_difference, elem_of_singleton. tauto.
  - rewrite lookup_insert_ne by done. by rewrite lookup_insert_eq.
  - by rewrite lookup_insert_eq.
Qed.

Lemma X4_witness :
  let w := boot_world {[RECOVERY_FILE cfg_3_8_15]} in
  ∃ w',
    Pipeline.main cfg_3_8_15 Semver.core "/root" [""] [] [] [] w = (Return tt, w')
    ∧ trace w' = trace w ++ [ELog INFO "CME system starting";
                             ELog INFO "Recovery mode boot requested";
                             ERemove (RECOVERY_FILE cfg_3_8_15);
                             ELog INFO "Update stage bypassed (Recovery mode)";
                             ELog INFO "Module launch stage bypassed (Recovery mode)";
                             ELog INFO "Launching recovery module";
                             EOutput GPIO_STATUS_GREEN false;
                             EOutput GPIO_STATUS_SOLID true;
                             ERun Pipeline.recovery_command]
    ∧ (RECOVERY_FILE cfg_3_8_15 ∉ files w')
    ∧ board w' !! GPIO_STATUS_GREEN = Some (OUT, false)
    ∧ board w' !! GPIO_STATUS_SOLID = Some (OUT, true).
Proof.
  apply (X4_recovery_boot cfg_3_8_15 Semver.core "/root" [""] [] [] []
           (boot_world {[RECOVERY_FILE cfg_3_8_15]})).
  - vm_compute. reflexivity.
  - apply boot_world_ready.
Defined.

(** X5.  However [main] ends, by returning or by raising any exception,
    SystemExit with another code included, the [finally] clause runs
    [cleanup]: with the outputs still set up the process leaves with
    status 0 and the GPIO channels released. *)
Theorem X5_top_level_always_exits_0
        cfg (main : M unit) (w w1 : World) (r : result unit) :
  main w = (r, w1) →
  r ≠ Running →
  Shutdown.outputs_ready w1 →
  Shutdown.exit_status (fst (Shutdown.toplevel cfg main w)) = Some 0%Z
  ∧ board (snd (Shutdown.toplevel cfg main w)) = ∅.
Proof.
  intros Hmain Hr Ho. unfold Shutdown.toplevel. rewrite Hmain.
  pose proof (cleanup_body_spec cfg w1 Ho) as Hc. simpl in Hc.
  destruct r as [[]|e|]; [| |done].
  - unfold Shutdown.cleanup. by rewrite Hc.
  - destruct (Shutdown.is_Exception e).
    + assert (Shutdown.outputs_ready
                (snd (log_info "Avalanche (Cme-init) has STOPPED on exception"
                               w1))) as Ho2
        by (intros ch Hch; by apply Ho).
      pose proof (cleanup_body_spec cfg _ Ho2) as Hc2. simpl in Hc2.
      replace ((log_info "Avalanche (Cme-init) has STOPPED on exception" ;;;
                Shutdown.cleanup cfg []) w1)
        with (Shutdown.cleanup_body cfg
                (snd (log_info "Avalanche (Cme-init) has STOPPED on exception"
                               w1))) by reflexivity.
      simpl. by rewrite Hc2.
    + unfold bind at 1 2. unfold Shutdown.cleanup. by rewrite Hc.
Qed.

Lemma X5_witness :
  let main : M unit := raise (SystemExit 3) in
  Shutdown.exit_status
    (fst (Shutdown.toplevel cfg_3_8_15 main (boot_world ∅))) = Some 0%Z
  ∧ board (snd (Shutdown.toplevel cfg_3_8_15 main (boot_world ∅))) = ∅.
Proof.
  apply (X5_top_level_always_exits_0 cfg_3_8_15 (raise (SystemExit 3))
           (boot_world ∅) (boot_world ∅) (Raise (SystemExit 3))).
  - reflexivity.
  - discriminate.
  - apply boot_world_ready.
Defined.

(** X6.  A SIGTERM never runs the teardown in the handler: the handler
    call raises TypeError.  Delivered between two calls of [main] that
    are outside the [try] of lines 156-159, the TypeError ends [main]:
    the rest of [main] is skipped, the top-level [except] logs the
    exception and the [finally] clause runs the teardown once; the process
    leaves with status 0.  Delivered inside a [try] with a bare [except]
    and [pass], as the one of lines 156-159, the TypeError is swallowed:
    the rest of the [try] body is skipped and [main] goes on after it. *)
Theorem X6_sigterm_during_main
        cfg (before rest : M unit) (w w1 : World) :
  before w = (Return tt, w1) →
  Shutdown.outputs_ready w1 →
  let interrupted := (before ;;; Shutdown.on_sigterm cfg ;;; rest) in
  let top := Shutdown.toplevel cfg interrupted in
  fst (top w) = Raise (SystemExit 0)
  ∧ trace (snd (top w))
    = trace w1
      ++ [ELog INFO "Avalanche (Cme-init) has STOPPED on exception";
          EOutput GPIO_STATUS_GREEN false; EOutput GPIO_STATUS_SOLID false]
      ++ (if bool_decide (POWEROFF_FILE cfg ∈ files w1)
          then [ERemove (POWEROFF_FILE cfg);
                EOutput GPIO_STANDBY true; ESleep 100]
          else [])
      ++ [EGpioCleanup; ELog INFO "CME system software exiting"]
  ∧ Pipeline.try_pass interrupted w = (Return tt, w1).
Proof.
  intros Hb Ho interrupted top.
  assert (interrupted w = (Raise (TypeError "cleanup" 2), w1)) as Hmain
    by (unfold interrupted; by rewrite (bind_return _ _ _ _ _ Hb)).
  assert (Shutdown.outputs_ready
            (snd (log_info "Avalanche (Cme-init) has STOPPED on exception" w1)))
    as Ho2 by (intros ch Hch; by apply Ho).
  pose proof (cleanup_body_spec cfg _ Ho2) as Hc. simpl in Hc.
  assert (top w = Shutdown.cleanup_body cfg
            (snd (log_info "Avalanche (Cme-init) has STOPPED on exception"
                           w1))) as Htop.
  { unfold top, Shutdown.toplevel. by rewrite Hmain. }
  rewrite Htop. simpl. rewrite Hc. simpl.
  split; [done|]. split; [by rewrite <- !app_assoc|].
  unfold Pipeline.try_pass. by rewrite Hmain.
Qed.

Lemma X6_witness :
  let interrupted := (log_info "CME system starting" ;;;
                      Shutdown.on_sigterm cfg_3_8_15 ;;;
                      Pipeline.recovery_launch) in
  let top := Shutdown.toplevel cfg_3_8_15 interrupted in
  let w1 := snd (log_info "CME system starting" (boot_world ∅)) in
  fst (top (boot_world ∅)) = Raise (SystemExit 0)
  ∧ trace (snd (top (boot_world ∅)))
    = trace w1
      ++ [ELog INFO "Avalanche (Cme-init) has STOPPED on exception";
          EOutput GPIO_STATUS_GREEN false; EOutput GPIO_STATUS_SOLID false]
      ++ (if bool_decide (POWEROFF_FILE cfg_3_8_15 ∈ files w1)
          then [ERemove (POWEROFF_FILE cfg_3_8_15);
                EOutput GPIO_STANDBY true; ESleep 100]
          else [])
      ++ [EGpioCleanup; ELog INFO "CME system software exiting"]
  ∧ Pipeline.try_pass interrupted (boot_world ∅) = (Return tt, w1).
Proof.
  intros interrupted top w1.
  apply (X6_sigterm_during_main cfg_3_8_15
           (log_info "CME system starting") Pipeline.recovery_launch
           (boot_world ∅) w1).
  - reflexivity.
  - intros ch Hch. by apply (boot_world_ready ∅).
Defined.

(** X8.  [_stop_remove_containers] never raises and touches neither the
    GPIO channels nor the files: after the log line and [docker ps -aq]
    it issues, for every non-empty id listed and in the order listed,
    [docker stop] directly followed by [docker rm] of that id; empty
    lines, such as the single one of an empty listing, are skipped. *)
Theorem X8_stop_remove_every_listed_container
        (containers : list string) (w : World) :
  Pipeline._stop_remove_containers containers w
  = (Return tt,
     mkWorld (board w) (files w) (input_reads w) (clock_reads w)
       (trace w
        ++ [ELog INFO "Stopping and removing any module containers";
            ERun ["docker"; "ps"; "-aq"]]
        ++ flat_map (λ c, [ERun ["docker"; "stop"; c];
                           ERun ["docker"; "rm"; c]])
                    (filter (λ c, c ≠ "") containers))).
Proof.
  assert (∀ cs w0,
            Pipeline.stop_remove_each cs w0
            = (Return tt,
               mkWorld (board w0) (files w0) (input_reads w0) (clock_reads w0)
                 (trace w0
                  ++ flat_map (λ c, [ERun ["docker"; "stop"; c];
                                     ERun ["docker"; "rm"; c]])
                              (filter (λ c, c ≠ "") cs)))) as Heach.
  { induction cs as [|c cs IH]; intros w0; simpl.
    - rewrite app_nil_r. by destruct w0.
    - rewrite filter_cons. unfold bind at 1.
      destruct (String.eqb c "") eqn:Hc; simpl.
      + apply eqb_name_true in Hc. rewrite decide_False by (by intros []).
        apply IH.
      + apply eqb_name_false in Hc. rewrite decide_True by done.
        rewrite IH. simpl. by rewrite <- !app_assoc. }
  unfold Pipeline._stop_remove_containers, bind, log_info, emit. simpl.
  rewrite Heach. simpl. by rewrite <- !app_assoc.
Qed.

(** ** [_parse_image] and [_list_docker_images] on arbitrary lines *)

Lemma parse_image_other_name lib name cur n fields w :
  n ≠ name →
  Selector._parse_image lib name cur (n :: fields) w = (Return cur, w).
Proof.
  intros Hne. unfold Selector._parse_image, bind, Selector.index. simpl.
  apply eqb_name_false in Hne. by rewrite Hne.
Qed.

Lemma scan_skips_irrelevant lib images :
  ∀ a h b w,
    Selector.scan lib images a h b w
    = Selector.scan lib (filter relevant images) a h b w.
Proof.
  induction images as [|r images IH]; intros a h b w; [done|].
  rewrite filter_cons. case_decide as Hrel.
  - simpl. unfold bind.
    destruct (Selector._parse_image lib "cmeapi" a r w) as [[a'|e|] w1];
      [|done..].
    destruct (Selector._parse_image lib "cmehw" h r w1) as [[h'|e|] w2];
      [|done..].
    destruct (Selector._parse_image lib "cmeweb" b r w2) as [[b'|e|] w3];
      [|done..].
    apply IH.
  - destruct r as [|n fields]; [by destruct Hrel|]. simpl in Hrel.
    simpl. unfold bind.
    rewrite !parse_image_other_name; [apply IH|..];
      intros ->; apply Hrel; by repeat constructor.
Qed.

(** X9.  Lines of the listing whose first field is not one of the three
    required names play no part in the selection, whatever their other
    fields hold: the outcome of [_list_docker_images], result or
    exception, is the same with and without them. *)
Theorem X9_other_images_are_ignored lib (images : list Selector.row) w :
  Selector._list_docker_images lib images w
  = Selector._list_docker_images lib (filter relevant images) w.
Proof.
  unfold Selector._list_docker_images, bind at 1 3. simpl.
  unfold bind. by rewrite scan_skips_irrelevant.
Qed.

Lemma parse_image_from_listing lib images name cur r w c w' :
  Selector._parse_image lib name cur r w = (Return c, w') →
  r ∈ images →
  from_listing images name cur →
  from_listing images name c.
Proof.
  intros Hrun Hr Hcur. revert Hrun.
  unfold Selector._parse_image, bind, Selector.index.
  destruct (r !! 0%nat) as [n0|] eqn:H0; simpl; [|done].
  destruct (String.eqb n0 name) eqn:Hname; simpl.
  2: { by intros [= <- _]. }
  apply eqb_name_true in Hname.
  assert (∀ n1, r !! 1%nat = Some n1 →
                from_listing images name (Some (n0, n1))) as Hnew.
  { intros n1 H1. split; [done|]. by exists r. }
  destruct cur as [cu|]; simpl.
  - destruct (r !! 1%nat) as [n1|] eqn:H1; simpl; [|done].
    destruct (Semver.match_ lib n1 (">=" +:+ cu.2) w) as [[[]|e|] w1];
      simpl; try done.
    + intros [= <- _]. by apply Hnew.
    + by intros [= <- _].
  - destruct (r !! 1%nat) as [n1|] eqn:H1; simpl; [|done].
    intros [= <- _]. by apply Hnew.
Qed.

Lemma scan_from_listing lib images l :
  ∀ a h b w ra rh rb w',
    (∀ r, r ∈ l → r ∈ images) →
    Selector.scan lib l a h b w = (Return (ra, rh, rb), w') →
    from_listing images "cmeapi" a →
    from_listing images "cmehw" h →
    from_listing images "cmeweb" b →
    from_listing images "cmeapi" ra
    ∧ from_listing images "cmehw" rh
    ∧ from_listing images "cmeweb" rb.
Proof.
  induction l as [|r l IH]; intros a h b w ra rh rb w' Hsub; simpl.
  { by intros [= <- <- <- _]. }
  intros Hrun Ha Hh Hb.
  apply bind_return_inv in Hrun as (a' & w1 & Ea & Hrun).
  apply bind_return_inv in Hrun as (h' & w2 & Eh & Hrun).
  apply bind_return_inv in Hrun as (b' & w3 & Eb & Hrun).
  assert (r ∈ images) as Hr by (apply Hsub; by left).
  apply (IH a' h' b' w3 ra rh rb w'); [|done|..].
  - intros x Hx. apply Hsub. by right.
  - by apply (parse_image_from_listing lib images _ a r w a' w1).
  - by apply (parse_image_from_listing lib images _ h r w1 h' w2).
  - by apply (parse_image_from_listing lib images _ b r w2 b' w3).
Qed.

(** X10.  Whenever [_list_docker_images] returns, on any lines at all, its
    dictionary holds an image only under the three required names, and an
    image held under a name has that name as its first field and is made
    of the first two fields of one line of the listing. *)
Theorem X10_selected_images_come_from_the_listing
        lib (images : list Selector.row) (w w' : World)
        (d : gmap string (option Selector.image)) :
  Selector._list_docker_images lib images w = (Return d, w') →
  ∀ name img,
    Selector.dict_get d name = Some img →
    name ∈ Selector.required
    ∧ img.1 = name
    ∧ ∃ r, r ∈ images ∧ r !! 0%nat = Some img.1 ∧ r !! 1%nat = Some img.2.
Proof.
  unfold Selector._list_docker_images. intros Hrun.
  apply bind_return_inv in Hrun as ([] & w1 & _ & Hrun).
  apply bind_return_inv in Hrun as ([[ra rh] rb] & w2 & Hscan & Hrun).
  injection Hrun as <- _.
  destruct (scan_from_listing lib images images None None None w1
              ra rh rb w2) as (Ha & Hh & Hb); try done.
  destruct (dict_get_three ra rh rb) as (Ga & Gh & Gb).
  intros name img Hget.
  destruct (decide (name = "cmeapi")) as [->|Na].
  { rewrite Ga in Hget. subst ra. split; [by repeat constructor|exact Ha]. }
  destruct (decide (name = "cmehw")) as [->|Nh].
  { rewrite Gh in Hget. subst rh. split; [by repeat constructor|exact Hh]. }
  destruct (decide (name = "cmeweb")) as [->|Nw].
  { rewrite Gb in Hget. subst rb. split; [by repeat constructor|exact Hb]. }
  unfold Selector.dict_get in Hget.
  rewrite !lookup_insert_ne in Hget by done. by rewrite lookup_empty in Hget.
Qed.

Lemma X10_witness :
  let images := [["cmeapi"; "1.2.0"; "0a1b"; "2 days ago"];
                 ["busybox"; "latest"];
                 ["cmeapi"; "1.3.0"; "0c2d"]] in
  let run := Selector._list_docker_images Semver.core images (boot_world ∅) in
  ∃ d, run = (Return d, snd run)
       ∧ ∀ name img,
           Selector.dict_get d name = Some img →
           name ∈ Selector.required
           ∧ img.1 = name
           ∧ ∃ r, r ∈ images ∧ r !! 0%nat = Some img.1
                  ∧ r !! 1%nat = Some img.2.
Proof.
  intros images run.
  assert (∃ d, run = (Return d, snd run)) as [d Hd]
    by (eexists; vm_compute; reflexivity).
  exists d. split; [exact Hd|].
  exact (X10_selected_images_come_from_the_listing
           Semver.core images (boot_world ∅) (snd run) d Hd).
Defined.

Lemma scan_app lib l1 l2 :
  ∀ a h b w,
    Selector.scan lib (l1 ++ l2) a h b w
    = match Selector.scan lib l1 a h b w with
      | (Return (a', h', b'), w1) => Selector.scan lib l2 a' h' b' w1
      | (Raise e, w1) => (Raise e, w1)
      | (Running, w1) => (Running, w1)
      end.
Proof.
  induction l1 as [|r l1 IH]; intros a h b w; simpl; [done|].
  unfold bind.
  destruct (Selector._parse_image lib "cmeapi" a r w) as [[a'|e|] w1];
    [|done..].
  destruct (Selector._parse_image lib "cmehw" h r w1) as [[h'|e|] w2];
    [|done..].
  destruct (Selector._parse_image lib "cmeweb" b r w2) as [[b'|e|] w3];
    [|done..].
  apply IH.
Qed.

Lemma parse_image_no_tag lib name cur w :
  Selector._parse_image lib name cur [name] w = (Raise IndexError, w).
Proof.
  unfold Selector._parse_image, bind, Selector.index. simpl.
  rewrite String.eqb_refl. simpl. by destruct cur.
Qed.

Lemma scan_too_short lib r rest a h b w :
  too_short r →
  Selector.scan lib (r :: rest) a h b w = (Raise IndexError, w).
Proof.
  intros [-> | (n & -> & Hn)]; [done|]. simpl. unfold bind.
  repeat (apply elem_of_cons in Hn as [-> | Hn]).
  - by rewrite parse_image_no_tag.
  - rewrite parse_image_other_name by done. by rewrite parse_image_no_tag.
  - rewrite !parse_image_other_name by done. by rewrite parse_image_no_tag.
  - by apply elem_of_nil in Hn.
Qed.

(** X11.  A line without fields, or a line that holds a required name
    and no tag, makes [_list_docker_images] raise IndexError once the
    loop reaches it, here after the lines of a catalog on which the
    selection does not raise; the lines after it are not looked at. *)
Theorem X11_short_line_raises_IndexError
        lib (catalog : list (string * string)) (r : Selector.row)
        (rest : list Selector.row) (w : World) :
  existsb (conflict lib catalog) Selector.required = false →
  too_short r →
  ∃ w', Selector._list_docker_images
          lib (map Selector.row_of catalog ++ r :: rest) w
        = (Raise IndexError, w').
Proof.
  intros Hok Hshort. unfold Selector.required in Hok. simpl in Hok.
  apply orb_false_elim in Hok as [Ca Hok].
  apply orb_false_elim in Hok as [Ch Hok].
  apply orb_false_elim in Hok as [Cb _].
  pose proof (pick_all_none lib "cmeapi" catalog) as Ha. rewrite Ca in Ha.
  pose proof (pick_all_none lib "cmehw" catalog) as Hh. rewrite Ch in Hh.
  pose proof (pick_all_none lib "cmeweb" catalog) as Hb. rewrite Cb in Hb.
  destruct Ha as (ra & Ea & _), Hh as (rh & Eh & _), Hb as (rb & Eb & _).
  set (w1 := snd (emit (ERun ["docker"; "images"]) w)).
  pose proof (scan_row_of lib catalog None None None w1) as Hscan.
  rewrite Ea, Eh, Eb in Hscan.
  exists w1. unfold Selector._list_docker_images.
  rewrite (bind_return _ _ _ tt w1) by done.
  unfold bind. rewrite scan_app, Hscan.
  by rewrite (scan_too_short lib r rest ra rh rb w1 Hshort).
Qed.

Lemma X11_witness :
  ∃ w', Selector._list_docker_images
          Semver.core
          (map Selector.row_of [("cmeapi", "1.3.0")]
           ++ ["cmehw"] :: [["cmeweb"; "0.9.1"]])
          (boot_world ∅)
        = (Raise IndexError, w').
Proof.
  apply (X11_short_line_raises_IndexError
           Semver.core [("cmeapi", "1.3.0")] ["cmehw"] [["cmeweb"; "0.9.1"]]
           (boot_world ∅)).
  - reflexivity.
  - right. exists "cmehw". split; [done|]. by repeat constructor.
Defined.

Lemma last_maximum_upper lib name c e :
  Semver.lawful lib →
  last_maximum lib name c (Some e) →
  is_Some (Semver.parse lib e.2) →
  e ∈ c ∧ e.1 = name
  ∧ ∀ x, x ∈ c → x.1 = name → version_le lib x.2 e.2.
Proof.
  intros law (before & after & -> & He & Hle & Hlt) [ve Hve].
  split; [|split; [done|]].
  - apply elem_of_app. right. by left.
  - intros x Hx Hxn. apply elem_of_app in Hx as [Hx | Hx]; [by apply Hle|].
    apply elem_of_cons in Hx as [-> | Hx].
    + exists ve, ve. repeat split; [done..|].
      by rewrite (Semver.prec_refl lib law).
    + destruct (Hlt x Hx Hxn) as (vx & ve' & Hvx & Hve' & Hcmp).
      exists vx, ve'. repeat split; [done..|]. by rewrite Hcmp.
Qed.

Lemma last_maximum_unique lib name c1 c2 r1 r2 :
  Semver.lawful lib →
  c1 ≡ₚ c2 →
  (∀ e, e ∈ c1 → e.1 = name → is_Some (Semver.parse lib e.2)) →
  no_ties lib c1 →
  last_maximum lib name c1 r1 →
  last_maximum lib name c2 r2 →
  r1 = r2.
Proof.
  intros law Hperm Hparse Hties H1 H2.
  destruct r1 as [e1|], r2 as [e2|]; [| | |done].
  - assert (e1 ∈ c1 ∧ e1.1 = name) as [Hin1 Hn1].
    { destruct H1 as (b & a & -> & He & _). split; [|done].
      apply elem_of_app. right. by left. }
    assert (e2 ∈ c2 ∧ e2.1 = name) as [Hin2 Hn2].
    { destruct H2 as (b & a & -> & He & _). split; [|done].
      apply elem_of_app. right. by left. }
    assert (e2 ∈ c1) as Hin21 by by rewrite Hperm.
    assert (e1 ∈ c2) as Hin12 by by rewrite <- Hperm.
    destruct (last_maximum_upper lib name c1 e1 law H1) as (_ & _ & Hup1);
      [by apply Hparse|].
    destruct (last_maximum_upper lib name c2 e2 law H2) as (_ & _ & Hup2);
      [by apply Hparse|].
    destruct (Hup1 e2 Hin21 Hn2) as (v2 & v1 & Hv2 & Hv1 & H21).
    destruct (Hup2 e1 Hin12 Hn1) as (v1' & v2' & Hv1' & Hv2' & H12).
    assert (v1' = v1) as -> by congruence.
    assert (v2' = v2) as -> by congruence.
    f_equal. apply (Hties e1 e2 v1 v2); try done; [congruence|].
    rewrite (Semver.prec_antisym lib law v1 v2) in H21.
    by destruct (Semver.precedence lib v1 v2).
  - destruct H1 as (b & a & -> & He & _).
    exfalso. apply (H2 e1); [|done]. rewrite <- Hperm.
    apply elem_of_app. right. by left.
  - destruct H2 as (b & a & -> & He & _).
    exfalso. apply (H1 e2); [|done]. rewrite Hperm.
    apply elem_of_app. right. by left.
Qed.

(** X12.  With a lawful precedence, versions that parse and no two
    entries of one name of equal precedence, the order of the catalog is
    irrelevant: any permutation of the entries gives the same
    dictionary. *)
Theorem X12_order_is_irrelevant_without_ties
        lib (c1 c2 : list (string * string)) (w : World) :
  Semver.lawful lib →
  c1 ≡ₚ c2 →
  (∀ e, e ∈ c1 → e.1 ∈ Selector.required →
        is_Some (Semver.parse lib e.2)) →
  no_ties lib c1 →
  ∃ d w1 w2,
    Selector._list_docker_images lib (map Selector.row_of c1) w
    = (Return d, w1)
    ∧ Selector._list_docker_images lib (map Selector.row_of c2) w
      = (Return d, w2).
Proof.
  intros law Hperm Hparse Hties.
  assert (∀ name, name ∈ Selector.required →
            ∃ r, pick_all lib name None c1 = Return r
                 ∧ pick_all lib name None c2 = Return r) as Hfold.
  { intros name Hname.
    destruct (pick_all_last_maximum lib law name c1 [] None)
      as (r1 & E1 & M1).
    { by intros x Hx%elem_of_nil. }
    { intros x Hx Hxn. apply Hparse; [done|]. by rewrite Hxn. }
    destruct (pick_all_last_maximum lib law name c2 [] None)
      as (r2 & E2 & M2).
    { by intros x Hx%elem_of_nil. }
    { intros x Hx Hxn. simpl in Hx. rewrite <- Hperm in Hx.
      apply Hparse; [done|]. by rewrite Hxn. }
    exists r1. split; [done|]. rewrite E2. f_equal. symmetry.
    apply (last_maximum_unique lib name c1 c2 r1 r2); try done.
    intros e He Hen. apply Hparse; [done|]. by rewrite Hen. }
  destruct (Hfold "cmeapi") as (ra & Ea1 & Ea2); [by repeat constructor|].
  destruct (Hfold "cmehw") as (rh & Eh1 & Eh2); [by repeat constructor|].
  destruct (Hfold "cmeweb") as (rb & Eb1 & Eb2); [by repeat constructor|].
  pose proof (list_docker_images_row_of lib c1 w) as H1.
  pose proof (list_docker_images_row_of lib c2 w) as H2.
  rewrite Ea1, Eh1, Eb1 in H1. rewrite Ea2, Eh2, Eb2 in H2.
  destruct H1 as [w1 H1], H2 as [w2 H2]. by eexists _, w1, w2.
Qed.

Lemma X12_witness :
  let c1 := [("cmeapi", "1.2.0"); ("cmehw", "2.0.0"); ("cmeapi", "1.3.0")] in
  let c2 := [("cmeapi", "1.3.0"); ("cmehw", "2.0.0"); ("cmeapi", "1.2.0")] in
  ∃ d w1 w2,
    Selector._list_docker_images Semver.core (map Selector.row_of c1)
                                 (boot_world ∅) = (Return d, w1)
    ∧ Selector._list_docker_images Semver.core (map Selector.row_of c2)
                                   (boot_world ∅) = (Return d, w2).
Proof.
  intros c1 c2.
  apply (X12_order_is_irrelevant_without_ties Semver.core c1 c2 (boot_world ∅)).
  - exact core_lawful.
  - change c2 with (reverse c1). by rewrite reverse_Permutation.
  - intros e He _. unfold c1 in He.
    repeat (apply elem_of_cons in He as [-> | He]); [by eexists..|].
    by apply elem_of_nil in He.
  - intros x y vx vy Hx Hy Hn Hvx Hvy Hp. unfold c1 in Hx, Hy.
    repeat (apply elem_of_cons in Hx as [-> | Hx]);
      [| | |by apply elem_of_nil in Hx];
      (repeat (apply elem_of_cons in Hy as [-> | Hy]);
       [| | |by apply elem_of_nil in Hy]);
      try done; try discriminate Hn;
      vm_compute in Hvx, Hvy;
      injection Hvx as <-; injection Hvy as <-; discriminate Hp.
Defined.

(** ** The launcher threads: what is left when [main] is past its joins *)

Lemma running_stop_false x d c :
  Supervisor.running d c = false →
  Supervisor.running (Supervisor.docker_stop x d) c = false.
Proof.
  unfold Supervisor.running, Supervisor.docker_stop.
  induction d as [|e d IH]; simpl; [done|].
  intros [He Hd]%orb_false_elim. rewrite (IH Hd), orb_false_r.
  destruct (Supervisor.service_eqb e.1 x); simpl; [|done].
  by rewrite andb_false_r.
Qed.

Lemma running_stop_self x d :
  Supervisor.running (Supervisor.docker_stop x d) x = false.
Proof.
  unfold Supervisor.running, Supervisor.docker_stop.
  induction d as [|e d IH]; simpl; [done|]. rewrite IH, orb_false_r.
  destruct (Supervisor.service_eqb e.1 x) eqn:E; simpl.
  - by rewrite andb_false_r.
  - by rewrite E.
Qed.

Lemma running_rm_false x d c :
  Supervisor.running d c = false →
  Supervisor.running (Supervisor.docker_rm x d) c = false.
Proof.
  unfold Supervisor.running, Supervisor.docker_rm.
  induction d as [|e d IH]; simpl; [done|].
  intros [He Hd]%orb_false_elim. rewrite filter_cons.
  case_decide; simpl; [rewrite He|]; by rewrite (IH Hd).
Qed.

Lemma present_rm_implies x d c :
  Supervisor.present (Supervisor.docker_rm x d) c = true →
  Supervisor.present d c = true.
Proof.
  unfold Supervisor.present, Supervisor.docker_rm.
  induction d as [|e d IH]; simpl; [done|]. rewrite filter_cons.
  case_decide; simpl.
  - intros [He | Hd]%orb_true_iff; apply orb_true_iff; [by left|].
    right. by apply IH.
  - intros Hd. apply orb_true_iff. right. by apply IH.
Qed.

Lemma present_rm_self x d :
  Supervisor.running d x = false →
  Supervisor.present (Supervisor.docker_rm x d) x = false.
Proof.
  unfold Supervisor.present, Supervisor.running, Supervisor.docker_rm.
  induction d as [|e d IH]; simpl; [done|].
  intros [He Hd]%orb_false_elim. rewrite filter_cons.
  case_decide as Hk; simpl; [|by apply IH].
  rewrite (IH Hd), orb_false_r.
  destruct (Supervisor.service_eqb e.1 x) eqn:E; [|done].
  simpl in *. destruct e.2; [done|]. by destruct Hk.
Qed.

Lemma absent_everywhere d :
  (∀ c, Supervisor.present d c = false) → d = [].
Proof.
  destruct d as [|e d]; [done|]. intros H. specialize (H e.1).
  unfold Supervisor.present in H. simpl in H.
  by rewrite service_eqb_refl in H.
Qed.

Lemma on_todo_set_other st s p d m cs t c :
  t ≠ s →
  on_todo (Supervisor.mkState d (Supervisor.set_thread s p (Supervisor.thread st))
                              m cs) t c
  ↔ on_todo st t c.
Proof.
  intros Hne. unfold on_todo. simpl. by rewrite set_thread_ne.
Qed.

Lemma on_todo_set_self st s p d m cs c :
  on_todo (Supervisor.mkState d (Supervisor.set_thread s p (Supervisor.thread st))
                              m cs) s c
  ↔ ∃ todo, (p = Supervisor.AtStop todo ∨ p = Supervisor.AtRm todo) ∧ c ∈ todo.
Proof. unfold on_todo. simpl. by rewrite set_thread_eq. Qed.

(** A launcher that was started moves to [p], past [docker run]: what is
    left to show for the invariant. *)
Lemma group_move st s p d cs :
  let st' := Supervisor.mkState d (Supervisor.set_thread s p (Supervisor.thread st))
                                (Supervisor.main_at st) cs in
  group_inv st →
  Supervisor.thread st s ≠ Supervisor.NotStarted →
  p ≠ Supervisor.NotStarted → p ≠ Supervisor.AtRun →
  (∀ c, c ≠ s → Supervisor.present d c = true →
        Supervisor.present (Supervisor.daemon st) c = true) →
  (Supervisor.present d s = true →
   p = Supervisor.AtWait ∨ p = Supervisor.AtPs
   ∨ ∃ todo, (p = Supervisor.AtStop todo ∨ p = Supervisor.AtRm todo)
             ∧ s ∈ todo) →
  (∀ todo c, p = Supervisor.AtStop todo ∨ p = Supervisor.AtRm todo →
             c ∈ todo → c ≠ s →
             Supervisor.thread st c ≠ Supervisor.NotStarted
             ∧ Supervisor.thread st c ≠ Supervisor.AtRun) →
  (∀ c rest, p = Supervisor.AtRm (c :: rest) →
             Supervisor.running d c = false) →
  (∀ t c rest, t ≠ s →
               Supervisor.thread st t = Supervisor.AtRm (c :: rest) →
               Supervisor.running d c = false) →
  group_inv st'.
Proof.
  intros st' [M L N K] Hs Hp1 Hp2 Hother Hself Hlist Kself Kother.
  split.
  - simpl. destruct (Supervisor.main_at st); try done.
    + by destruct (Hs (M s)).
    + destruct M as [Mh Mw]. split; rewrite set_thread_ne; try done;
        intros <-; by destruct Hs.
    + rewrite set_thread_ne; [done|]. intros <-. by destruct Hs.
  - intros c Hc. simpl in Hc. destruct (decide (c = s)) as [->|Hne].
    + simpl. rewrite set_thread_eq.
      destruct (Hself Hc) as [H | [H | H]]; [by left | by right; left|].
      right; right. by apply on_todo_set_self.
    + simpl. rewrite set_thread_ne by done.
      destruct (L c (Hother c Hne Hc)) as [H | [H | H]];
        [by left | by right; left|].
      right; right. by apply on_todo_set_other.
  - intros t c Ht. simpl.
    assert (c ≠ s → Supervisor.thread st c ≠ Supervisor.NotStarted
                    ∧ Supervisor.thread st c ≠ Supervisor.AtRun) as Hc.
    { intros Hne. destruct (decide (t = s)) as [->|Hts].
      - apply on_todo_set_self in Ht as (todo & Hp & Hin).
        by apply (Hlist todo c).
      - apply on_todo_set_other in Ht; [|done]. by apply (N t c). }
    destruct (decide (c = s)) as [->|Hne].
    + by rewrite set_thread_eq.
    + rewrite set_thread_ne by done. by apply Hc.
  - intros t c rest. simpl. destruct (decide (t = s)) as [->|Hts].
    + rewrite set_thread_eq. apply Kself.
    + rewrite set_thread_ne by done. by apply Kother.
Qed.

Lemma group_thread_step s st st' :
  group_inv st → Supervisor.thread_step s st = Some st' → group_inv st'.
Proof.
  intros Hinv. pose proof Hinv as [M L N K].
  assert (∀ c, Supervisor.present (Supervisor.daemon st) c = true →
               Supervisor.thread st c ≠ Supervisor.NotStarted
               ∧ Supervisor.thread st c ≠ Supervisor.AtRun) as Lstarted.
  { intros c Hc. destruct (L c Hc) as [H | [H | (todo & [H | H] & _)]];
      rewrite H; done. }
  unfold Supervisor.thread_step.
  destruct (Supervisor.thread st s) as [| | | |todo|todo|] eqn:Hpc; try done.
  - (* docker run *)
    intros [= <-]. apply group_move; try done.
    + by rewrite Hpc.
    + intros c Hne Hc. unfold Supervisor.present in Hc. simpl in Hc.
      apply orb_true_iff in Hc as [Hc | Hc]; [|done].
      apply service_eqb_eq in Hc. by subst.
    + intros _. by left.
    + intros todo c [H | H]; done.
    + intros t c rest Hts Ht. unfold Supervisor.running. simpl.
      apply orb_false_intro; [|by apply (K t c rest)].
      destruct (Supervisor.service_eqb s c) eqn:E; [|done].
      apply service_eqb_eq in E. subst c.
      destruct (N t s) as [_ Hrun]; [|by rewrite Hpc in Hrun].
      exists (s :: rest). split; [by right | by left].
  - (* docker wait *)
    destruct (Supervisor.running (Supervisor.daemon st) s); [done|].
    intros [= <-]. apply group_move; try done.
    + by rewrite Hpc.
    + intros _. by right; left.
    + intros todo c [H | H]; done.
    + intros t c rest _ Ht. by apply (K t c rest).
  - (* docker ps -aq *)
    assert (∀ p,
      match p with
      | Supervisor.AtStop todo => todo = map fst (Supervisor.daemon st)
      | Supervisor.Finished => map fst (Supervisor.daemon st) = []
      | _ => False
      end →
      group_inv
        (Supervisor.mkState (Supervisor.daemon st)
           (Supervisor.set_thread s p (Supervisor.thread st))
           (Supervisor.main_at st) (Supervisor.calls st))) as Hgo.
    { intros p Hp. apply group_move; try done.
      - by rewrite Hpc.
      - by destruct p.
      - by destruct p.
      - intros Hs. apply present_elem in Hs. destruct p; try done.
        + right; right. exists todo. split; [by left | by subst].
        + rewrite Hp in Hs. by apply elem_of_nil in Hs.
      - intros todo c Hl Hc _. apply Lstarted. apply present_elem.
        destruct p; try done; destruct Hl as [[= <-] | Hl]; try done.
        by subst.
      - intros c rest ->. done.
      - intros t c rest _ Ht. by apply (K t c rest). }
    destruct (map fst (Supervisor.daemon st)) as [|c0 rest] eqn:Hl;
      intros [= <-]; by apply Hgo.
  - (* docker stop *)
    assert (∀ c, c ∈ todo → on_todo st s c) as Hmine
      by (intros c Hc; exists todo; split; [by left | done]).
    destruct todo as [|x rest]; intros [= <-]; apply group_move; try done.
    + by rewrite Hpc.
    + intros Hs. destruct (L s Hs) as [H | [H | (l & [H | H] & Hin)]];
        rewrite Hpc in H; try done.
      injection H as <-. by apply elem_of_nil in Hin.
    + intros todo c [H | H]; done.
    + intros t c rest _ Ht. by apply (K t c rest).
    + by rewrite Hpc.
    + intros c _ Hc. by rewrite present_stop in Hc.
    + intros Hs. rewrite present_stop in Hs.
      destruct (L s Hs) as [H | [H | (l & [H | H] & Hin)]];
        rewrite Hpc in H; try done.
      injection H as <-. right; right. exists (x :: rest).
      split; [by right | done].
    + intros todo c [[=] | [= <-]] Hc _. apply (N s c). by apply Hmine.
    + intros c rest0 [= <- <-]. apply running_stop_self.
    + intros t c rest0 _ Ht. apply running_stop_false. by apply (K t c rest0).
  - (* docker rm *)
    assert (∀ c, c ∈ todo → on_todo st s c) as Hmine
      by (intros c Hc; exists todo; split; [by right | done]).
    destruct todo as [|x rest]; intros [= <-].
    + apply group_move; try done.
      * by rewrite Hpc.
      * intros Hs. destruct (L s Hs) as [H | [H | (l & [H | H] & Hin)]];
          rewrite Hpc in H; try done.
        injection H as <-. by apply elem_of_nil in Hin.
      * intros todo c [H | H]; done.
      * intros t c rest _ Ht. by apply (K t c rest).
    + apply group_move; try done.
      * by rewrite Hpc.
      * by destruct rest.
      * by destruct rest.
      * intros c _ Hc. by apply present_rm_implies in Hc.
      * intros Hs. pose proof (present_rm_implies _ _ _ Hs) as Hs0.
        destruct (L s Hs0) as [H | [H | (l & [H | H] & Hin)]];
          rewrite Hpc in H; try done.
        injection H as <-. apply elem_of_cons in Hin as [-> | Hin].
        { rewrite present_rm_self in Hs; [done|]. by apply (K x x rest). }
        right; right. exists rest. split; [|done].
        destruct rest; [by apply elem_of_nil in Hin | by left].
      * intros todo c Hp Hc _. apply (N s c), Hmine. right.
        destruct rest; [by destruct Hp|].
        by destruct Hp as [[= <-] | [=]].
      * intros c rest0 Hp. by destruct rest.
      * intros t c rest0 _ Ht. apply running_rm_false. by apply (K t c rest0).
Qed.

Lemma group_main_step st st' :
  group_inv st → Supervisor.main_step st = Some st' → group_inv st'.
Proof.
  intros [M L N K].
  assert (∀ s next,
            Supervisor.thread st s = Supervisor.NotStarted →
            match next with
            | Supervisor.StartHw =>
                s = Supervisor.Api
                ∧ Supervisor.thread st Supervisor.Hw = Supervisor.NotStarted
                ∧ Supervisor.thread st Supervisor.Web = Supervisor.NotStarted
            | Supervisor.StartWeb =>
                s = Supervisor.Hw
                ∧ Supervisor.thread st Supervisor.Web = Supervisor.NotStarted
            | Supervisor.JoinApi => True
            | _ => False
            end →
            group_inv
              (Supervisor.mkState (Supervisor.daemon st)
                 (Supervisor.set_thread s Supervisor.AtRun (Supervisor.thread st))
                 next (Supervisor.calls st))) as Hstart.
  { intros s next Hs Hnext.
    assert (∀ t c, on_todo st t c → c ≠ s) as Hnot.
    { intros t c Ht ->. destruct (N t s Ht) as [H _]. by destruct H. }
    split; simpl.
    - destruct next; try done.
      + destruct Hnext as (-> & Hh & Hw). by rewrite !set_thread_ne.
      + destruct Hnext as (-> & Hw). by rewrite !set_thread_ne.
    - intros c Hc. destruct (L c Hc) as [H | [H | H]].
      + left. rewrite set_thread_ne; [done|]. intros ->. congruence.
      + right; left. rewrite set_thread_ne; [done|]. intros ->. congruence.
      + right; right. apply on_todo_set_other; [|done]. by apply (Hnot c).
    - intros t c Ht. destruct (decide (t = s)) as [->|Hts].
      + apply on_todo_set_self in Ht as (todo & [H | H] & _); done.
      + apply on_todo_set_other in Ht; [|done].
        rewrite set_thread_ne by by apply (Hnot t). by apply (N t c).
    - intros t c rest. destruct (decide (t = s)) as [->|Hts].
      + by rewrite set_thread_eq.
      + rewrite set_thread_ne by done. apply K. }
  assert (∀ next,
            match next with
            | Supervisor.JoinHw | Supervisor.JoinWeb | Supervisor.Returned =>
                True
            | _ => False
            end →
            group_inv
              (Supervisor.mkState (Supervisor.daemon st) (Supervisor.thread st)
                                  next (Supervisor.calls st))) as Hjoin.
  { intros next Hnext. split; simpl; try done. by destruct next. }
  unfold Supervisor.main_step, Supervisor.start_thread, Supervisor.join_thread.
  destruct (Supervisor.main_at st) eqn:Hm.
  - intros [= <-]. apply Hstart; [apply M|]. by repeat split.
  - intros [= <-]. destruct M. by apply Hstart.
  - intros [= <-]. by apply Hstart.
  - destruct (Supervisor.thread st Supervisor.Api); try done.
    intros [= <-]. by apply Hjoin.
  - destruct (Supervisor.thread st Supervisor.Hw); try done.
    intros [= <-]. by apply Hjoin.
  - destruct (Supervisor.thread st Supervisor.Web); try done.
    intros [= <-]. by apply Hjoin.
  - done.
Qed.

Lemma group_exit_step c st st' :
  group_inv st → Supervisor.exit_step c st = Some st' → group_inv st'.
Proof.
  intros [M L N K]. unfold Supervisor.exit_step.
  destruct (Supervisor.running (Supervisor.daemon st) c); [|done].
  intros [= <-]. split; simpl; try done.
  - intros x Hx. rewrite present_stop in Hx. by apply L.
  - intros t x rest Ht. apply running_stop_false. by apply (K t x rest).
Qed.

Lemma group_init : group_inv Supervisor.init.
Proof.
  split; simpl; try done.
  intros t c (todo & [H | H] & _); done.
Qed.

Lemma group_run schedule :
  ∀ st st', group_inv st → Supervisor.run schedule st = Some st' →
            group_inv st'.
Proof.
  induction schedule as [|a schedule IH]; intros st st' Hinv; simpl.
  - by intros [= <-].
  - destruct (Supervisor.step a st) as [st1|] eqn:Hstep; [|done].
    apply IH. destruct a; simpl in Hstep.
    + by apply (group_main_step st).
    + by apply (group_thread_step s st).
    + by apply (group_exit_step c st).
Qed.

(** X13.  In every interleaving of the three launchers, once the main
    thread is past its three joins no container of the group is left:
    each one that was created has been stopped and removed. *)
Theorem X13_no_container_left_after_joins
        (schedule : list Supervisor.actor) (st : Supervisor.state) :
  Supervisor.run schedule Supervisor.init = Some st →
  Supervisor.main_at st = Supervisor.Returned →
  Supervisor.daemon st = [].
Proof.
  intros Hrun Hret.
  destruct (run_inv schedule _ _ init_inv Hrun) as [_ _ _ _ J5].
  destruct (group_run schedule _ _ group_init Hrun) as [_ L _ _].
  rewrite Hret in J5. apply absent_everywhere. intros c.
  destruct (Supervisor.present (Supervisor.daemon st) c) eqn:Hc; [|done].
  destruct (L c Hc) as [H | [H | (todo & [H | H] & _)]];
    rewrite (J5 c) in H; done.
Qed.

Lemma X13_witness :
  ∃ st,
    Supervisor.run overlapping_teardown Supervisor.init = Some st
    ∧ Supervisor.main_at st = Supervisor.Returned
    ∧ Supervisor.daemon st = [].
Proof.
  eexists. split; [vm_compute; reflexivity|]. split; [reflexivity|].
  apply (X13_no_container_left_after_joins overlapping_teardown);
    [vm_compute; reflexivity | reflexivity].
Defined.

Lemma all_running_step a st st' :
  (∀ c, a ≠ Supervisor.Exits c) →
  all_running_inv st → Supervisor.step a st = Some st' →
  all_running_inv st'.
Proof.
  intros Ha [T C Mn]. destruct a as [|s|c]; simpl; [| |by destruct (Ha c)].
  - (* the main thread *)
    unfold Supervisor.main_step, Supervisor.start_thread,
      Supervisor.join_thread.
    assert (∀ s next,
              match next with
              | Supervisor.StartHw | Supervisor.StartWeb
              | Supervisor.JoinApi => True
              | _ => False
              end →
              all_running_inv
                (Supervisor.mkState (Supervisor.daemon st)
                   (Supervisor.set_thread s Supervisor.AtRun
                                          (Supervisor.thread st))
                   next (Supervisor.calls st))) as Hstart.
    { intros s next Hnext. split; simpl; [|done|by destruct next].
      intros x. destruct (decide (x = s)) as [->|Hne].
      - rewrite set_thread_eq. by right; left.
      - rewrite set_thread_ne by done. apply T. }
    destruct (Supervisor.main_at st) eqn:Hm; try done.
    + intros [= <-]. by apply Hstart.
    + intros [= <-]. by apply Hstart.
    + intros [= <-]. by apply Hstart.
    + destruct (T Supervisor.Api) as [H | [H | [H _]]]; by rewrite H.
  - (* a launcher *)
    unfold Supervisor.thread_step.
    destruct (T s) as [H | [H | [H Hrun]]]; rewrite H; [done| |by rewrite Hrun].
    intros [= <-]. split; simpl.
    + intros x. destruct (decide (x = s)) as [->|Hne].
      * rewrite set_thread_eq. right; right. split; [done|].
        unfold Supervisor.running. simpl. by rewrite service_eqb_refl.
      * rewrite set_thread_ne by done.
        destruct (T x) as [Hx | [Hx | [Hx Hr]]]; [by left | by right; left|].
        right; right. split; [done|]. unfold Supervisor.running in *.
        simpl. rewrite Hr. apply orb_true_r.
    + intros c. destruct (C c) as [Cs Cr].
      by rewrite !received_other_call.
    + done.
Qed.

Lemma all_running_run schedule :
  ∀ st st',
    (∀ c, Supervisor.Exits c ∉ schedule) →
    all_running_inv st → Supervisor.run schedule st = Some st' →
    all_running_inv st'.
Proof.
  induction schedule as [|a schedule IH]; intros st st' Hno Hinv; simpl.
  - by intros [= <-].
  - destruct (Supervisor.step a st) as [st1|] eqn:Hstep; [|done].
    apply IH.
    + intros c Hc. apply (Hno c). by right.
    + apply (all_running_step a st st1); [|done..].
      intros c ->. apply (Hno c). by left.
Qed.



(** X7.  Stage 4 follows stage 3 only once the launch is over.  When an
    image is missing, or when the launchers have finished so that the
    three joins return, lines 209-264 return: the last call is the
    recovery application and the indicator is red and solid.  With all
    three images and launchers that have not finished, the main thread
    stays blocked in a join: the recovery application is not run and the
    indicator stays green and solid.  This is the case as long as no
    container exits by itself. *)
Theorem X7_recovery_waits_for_the_launch
        cwd schedule (d : gmap string (option Selector.image)) (w : World) :
  Shutdown.outputs_ready w →
  let stages :=
    (Pipeline.launch_if_complete cwd schedule d ;;;
     Pipeline.recovery_launch) in
  ((complete d = false ∨ joins_return schedule = true) →
   ∃ w', stages w = (Return tt, w')
         ∧ last (trace w') = Some (ERun Pipeline.recovery_command)
         ∧ board w' !! GPIO_STATUS_GREEN = Some (OUT, false)
         ∧ board w' !! GPIO_STATUS_SOLID = Some (OUT, true))
  ∧ (complete d = true → joins_return schedule = false →
     ∃ w', stages w = (Running, w')
           ∧ (ERun Pipeline.recovery_command ∉ Shutdown.added stages w)
           ∧ board w' !! GPIO_STATUS_GREEN = Some (OUT, true)
           ∧ board w' !! GPIO_STATUS_SOLID = Some (OUT, true))
  ∧ ((∀ c, Supervisor.Exits c ∉ schedule) → joins_return schedule = false).
Proof.
  intros Ho stages.
  destruct (Ho GPIO_STATUS_GREEN) as [vg Hg]; [by repeat constructor|].
  destruct (Ho GPIO_STATUS_SOLID) as [vs Hs]; [by repeat constructor|].
  destruct w as [b f i c t]. simpl in *.
  assert (∀ v v', <[GPIO_STATUS_SOLID := (OUT, v)]>
                    (<[GPIO_STATUS_GREEN := (OUT, v')]> b)
                  !! GPIO_STATUS_GREEN = Some (OUT, v')) as Hg2.
  { intros v v'. rewrite lookup_insert_ne by done. by rewrite lookup_insert_eq. }
  assert (∀ l : list event, drop (length t) (t ++ l) = l) as Hd
    by (intros l; apply drop_app_length).
  split; [|split].
  - (* the launch is over *)
    intros Hover. unfold stages, Pipeline.launch_if_complete.
    unfold complete, joins_return in Hover.
    destruct (Selector.dict_get d "cmeapi") as [api|];
      [destruct (Selector.dict_get d "cmehw") as [hw|];
       [destruct (Selector.dict_get d "cmeweb") as [web|]|]|].
    2-4: unfold Pipeline.recovery_launch, log_warning, log_info, bind, emit,
           GPIO.output; simpl; rewrite Hg; simpl;
         rewrite lookup_insert_ne by done; rewrite Hs; simpl;
         eexists; split; [reflexivity|]; simpl;
         split; [by rewrite last_snoc|]; split; [apply Hg2|];
         by rewrite lookup_insert_eq.
    destruct Hover as [Hover|Hover]; [done|].
    unfold Pipeline.join_launchers.
    destruct (Supervisor.run schedule Supervisor.init) as [st|]; [|done].
    destruct (Supervisor.main_at st); try done.
    unfold Pipeline.recovery_launch, log_warning, log_info, bind, emit,
      GPIO.output. simpl.
    rewrite Hg. simpl. rewrite lookup_insert_ne by done. rewrite Hs. simpl.
    rewrite Hg2. simpl.
    rewrite lookup_insert_ne by done. rewrite lookup_insert_eq. simpl.
    eexists. split; [reflexivity|]. simpl.
    split; [by rewrite last_snoc|]. split.
    + rewrite lookup_insert_ne by done. by rewrite lookup_insert_eq.
    + by rewrite lookup_insert_eq.
  - (* the launchers have not finished *)
    intros Hall Hnot.
    unfold stages, Shutdown.added, Pipeline.launch_if_complete.
    unfold complete in Hall. unfold joins_return in Hnot.
    destruct (Selector.dict_get d "cmeapi") as [api|]; [|done].
    destruct (Selector.dict_get d "cmehw") as [hw|]; [|done].
    destruct (Selector.dict_get d "cmeweb") as [web|]; [|done].
    unfold Pipeline.join_launchers.
    destruct (Supervisor.run schedule Supervisor.init) as [st|];
      [destruct (Supervisor.main_at st); try done|].
    all: unfold Pipeline.blocked, log_warning, log_info, bind, emit,
           GPIO.output; simpl;
         rewrite Hg; simpl; rewrite lookup_insert_ne by done;
         rewrite Hs; simpl.
    all: eexists; split; [reflexivity|]; simpl.
    all: split; [|split; [apply Hg2 | by rewrite lookup_insert_eq]].
    all: rewrite <- ?app_assoc; rewrite Hd; simpl.
    all: intros He;
         repeat (apply elem_of_cons in He as [He | He]; [discriminate He|]);
         by apply elem_of_nil in He.
  - (* no container exits *)
    intros Hno. unfold joins_return.
    destruct (Supervisor.run schedule Supervisor.init) as [st|] eqn:Hrun;
      [|done].
    assert (all_running_inv Supervisor.init) as Hinit.
    { split; simpl; try done. intros s. by left. }
    destruct (all_running_run schedule _ _ Hno Hinit Hrun) as [_ _ Mn].
    by destruct (Supervisor.main_at st).
Qed.

Lemma X7_witness :
  let d : gmap string (option Selector.image) :=
    <["cmeapi" := Some ("cmeapi", "1.3.0")]>
      (<["cmehw" := Some ("cmehw", "2.0.0")]>
         (<["cmeweb" := Some ("cmeweb", "0.9.1")]> ∅)) in
  let schedule := [Supervisor.Main; Supervisor.Thread Supervisor.Api;
                   Supervisor.Main; Supervisor.Main;
                   Supervisor.Thread Supervisor.Web;
                   Supervisor.Thread Supervisor.Hw] in
  let stages :=
    (Pipeline.launch_if_complete "/root" schedule d ;;;
     Pipeline.recovery_launch) in
  ((complete d = false ∨ joins_return schedule = true) →
   ∃ w', stages (boot_world ∅) = (Return tt, w')
         ∧ last (trace w') = Some (ERun Pipeline.recovery_command)
         ∧ board w' !! GPIO_STATUS_GREEN = Some (OUT, false)
         ∧ board w' !! GPIO_STATUS_SOLID = Some (OUT, true))
  ∧ (complete d = true → joins_return schedule = false →
     ∃ w', stages (boot_world ∅) = (Running, w')
           ∧ (ERun Pipeline.recovery_command
              ∉ Shutdown.added stages (boot_world ∅))
           ∧ board w' !! GPIO_STATUS_GREEN = Some (OUT, true)
           ∧ board w' !! GPIO_STATUS_SOLID = Some (OUT, true))
  ∧ ((∀ c, Supervisor.Exits c ∉ schedule) → joins_return schedule = false).
Proof.
  intros d schedule stages.
  apply (X7_recovery_waits_for_the_launch "/root" schedule d (boot_world ∅)).
  apply boot_world_ready.
Defined.

(** X15.  For each of the three services and any tag, the command of
    [_launch_docker] starts the container detached and privileged under
    the service's container name and ends with the image reference
    name:tag; for an image of any other name nothing is appended, so the
    command names neither a container nor an image. *)
Theorem X15_launch_command :
  (∀ s tag,
     take 6 (Supervisor.launch_cmd (Supervisor.image_name s, tag))
     = ["docker"; "run"; "-d"; "--privileged"; "--name"; container_name s]
     ∧ last (Supervisor.launch_cmd (Supervisor.image_name s, tag))
       = Some (Supervisor.image_name s +:+ ":" +:+ tag))
  ∧ (∀ name tag,
       name ∉ Selector.required →
       Supervisor.launch_cmd (name, tag)
       = ["docker"; "run"; "-d"; "--privileged"; "--name"]).
Proof.
  split.
  - intros s tag. by destruct s.
  - intros name tag Hname. unfold Supervisor.launch_cmd. simpl.
    assert (∀ n, n ∈ Selector.required → String.eqb name n = false) as Hne.
    { intros n Hn. apply eqb_name_false. by intros ->. }
    rewrite !Hne; [done|by repeat constructor..].
Qed.

(** X16.  On a boot without the recovery marker the whole program runs
    nothing: after three log lines [main] stops on the NameError of
    stage 2, the top-level block logs it and runs the teardown, and the
    process leaves with status 0 without a docker command, the fifo
    script, a launcher thread or the recovery application. *)
Theorem X16_normal_boot_runs_nothing
        cfg lib cwd containers images packages schedule (w : World) :
  RECOVERY_FILE cfg ∉ files w →
  Shutdown.outputs_ready w →
  let top := Shutdown.toplevel cfg
               (Pipeline.main cfg lib cwd containers images packages schedule) in
  fst (top w) = Raise (SystemExit 0)
  ∧ trace (snd (top w))
    = trace w
      ++ [ELog INFO "CME system starting";
          ELog INFO "Normal boot mode requested";
          ELog INFO "Checking for updates";
          ELog INFO "Avalanche (Cme-init) has STOPPED on exception";
          EOutput GPIO_STATUS_GREEN false; EOutput GPIO_STATUS_SOLID false]
      ++ (if bool_decide (POWEROFF_FILE cfg ∈ files w)
          then [ERemove (POWEROFF_FILE cfg);
                EOutput GPIO_STANDBY true; ESleep 100]
          else [])
      ++ [EGpioCleanup; ELog INFO "CME system software exiting"].
Proof.
  intros Hno Ho top.
  pose proof (main_normal_boot cfg lib cwd containers images packages schedule w Hno)
    as E1.
  match type of E1 with _ = (_, ?w') => set (w1 := w') in * end.
  assert (Shutdown.outputs_ready
            (snd (log_info "Avalanche (Cme-init) has STOPPED on exception" w1)))
    as Ho2 by (intros ch Hch; by apply Ho).
  pose proof (cleanup_body_spec cfg _ Ho2) as Hc. simpl in Hc.
  assert (top w = Shutdown.cleanup_body cfg
            (snd (log_info "Avalanche (Cme-init) has STOPPED on exception"
                           w1))) as Htop.
  { unfold top, Shutdown.toplevel. by rewrite E1. }
  rewrite Htop. simpl. rewrite Hc. simpl.
  split; [done|]. by rewrite <- !app_assoc.
Qed.

Lemma X16_witness :
  let top := Shutdown.toplevel cfg_3_8_15
               (Pipeline.main cfg_3_8_15 Semver.core "/root" ["4f2a"]
                  [["cmeapi"; "1.3.0"]] ["update.tgz"] []) in
  let w := boot_world {[POWEROFF_FILE cfg_3_8_15]} in
  fst (top w) = Raise (SystemExit 0)
  ∧ trace (snd (top w))
    = trace w
      ++ [ELog INFO "CME system starting";
          ELog INFO "Normal boot mode requested";
          ELog INFO "Checking for updates";
          ELog INFO "Avalanche (Cme-init) has STOPPED on exception";
          EOutput GPIO_STATUS_GREEN false; EOutput GPIO_STATUS_SOLID false]
      ++ (if bool_decide (POWEROFF_FILE cfg_3_8_15 ∈ files w)
          then [ERemove (POWEROFF_FILE cfg_3_8_15);
                EOutput GPIO_STANDBY true; ESleep 100]
          else [])
      ++ [EGpioCleanup; ELog INFO "CME system software exiting"].
Proof.
  intros top w.
  apply (X16_normal_boot_runs_nothing cfg_3_8_15 Semver.core "/root" ["4f2a"]
           [["cmeapi"; "1.3.0"]] ["update.tgz"] [] w).
  - vm_compute. discriminate.
  - apply boot_world_ready.
Defined.

